(** * Customer churn dashboard: the aggregation pipeline of [app.py]

    A shallow embedding of the data transformations performed by the
    "Exploratory Data Analysis" page of [src/app.py]:

    - the age bucketing [pd.cut(df['customer_age'], bins, labels, right=False)];
    - the sidebar filter [filtered_df = df[isin & isin & isin & isin]];
    - the grouped counts behind [px.histogram(filtered_df, y=..., color='attrition_flag')];
    - [churn_rate_df]: [pd.crosstab(..., normalize='index') * 100], [melt],
      [round(1)] and the percentage label.

    Conventions of the embedding.
    - A data frame is the list of its rows, in row order.
    - A float64 value is the rational number it denotes ([Q]). In
      [churn_rate_df] every float64 operation (the conversion of a count,
      a division, a multiplication) is the exact operation followed by
      [fl], rounding to the nearest binary64 (53 significant bits, ties to
      even). The exponent range is not bounded: the values of the page lie
      far from overflow and underflow. [round(1)] is numpy's rounding,
      [rint(x * 10) / 10], with [rint] rounding halves to the even integer.
    - [attrition_flag] takes the two values the script itself distinguishes,
      ['Existing Customer'] and ['Attrited Customer'].
    - A missing value (NaN) of a column is [None]. Only [age_group] can be
      missing: the data set is taken to hold a string in every cell of
      [gender], [education_level] and [income_category]. *)

From Stdlib Require Import ZArith QArith Qround Qabs Qpower Bool List Lia Lqa.
From Stdlib Require Import Ascii String.
From Stdlib Require Import Sorting.Permutation Sorting.Sorted Sorting.Mergesort.
From Stdlib Require Import DecimalString DecimalZ.
From Stdlib Require Import Floats.
Import ListNotations.

Local Open Scope string_scope.
Local Open Scope list_scope.
Local Open Scope Z_scope.

(** ** Data model *)

(** The two values of the [attrition_flag] column. *)
Inductive outcome : Type :=
| Attrited
| Existing.

Definition outcome_name (o : outcome) : string :=
  match o with
  | Attrited => "Attrited Customer"
  | Existing => "Existing Customer"
  end.

Definition outcome_eqb (a b : outcome) : bool :=
  match a, b with
  | Attrited, Attrited | Existing, Existing => true
  | _, _ => false
  end.

(** One row of the data set (the columns the page reads). *)
Record customer : Type := mkCustomer {
  user_id : Z;
  attrition_flag : outcome;
  customer_age : Z;
  gender : string;
  education_level : string;
  income_category : string
}.

(** ** Age grouping: [pd.cut(..., right=False)] *)

Definition bins : list Z := [20; 40; 50; 60; 79].
Definition labels : list string := ["20-39"; "40-49"; "50-59"; "60-79"].

(** [pd.cut(x, bins=bs, labels=ls, right=False)] on one value: the label of
    the interval [bs[i] <= x < bs[i+1]] holding [x], NaN when there is none. *)
Fixpoint cut (bs : list Z) (ls : list string) (x : Z) : option string :=
  match bs, ls with
  | lo :: ((hi :: _) as rest), lab :: ls' =>
      if (lo <=? x) && (x <? hi) then Some lab else cut rest ls' x
  | _, _ => None
  end.

(** The value of the derived column [age_group] for a given age. *)
Definition assign_age_group (age : Z) : option string := cut bins labels age.

Definition age_group (r : customer) : option string :=
  assign_age_group (customer_age r).

(** The four category dimensions of the page. *)
Inductive dimension : Type :=
| AgeGroup
| EducationLevel
| Gender
| IncomeCategory.

(** [df[category]] at one row. *)
Definition column (d : dimension) (r : customer) : option string :=
  match d with
  | AgeGroup => age_group r
  | EducationLevel => Some (education_level r)
  | Gender => Some (gender r)
  | IncomeCategory => Some (income_category r)
  end.

(** ** Series helpers *)

(** [Series.dropna()]. *)
Definition dropna (l : list (option string)) : list string :=
  flat_map (fun v => match v with Some s => [s] | None => [] end) l.

(** [Series.unique()]: the distinct values, in order of first appearance. *)
Fixpoint unique {A : Type} (eqb : A -> A -> bool) (l : list A) : list A :=
  match l with
  | [] => []
  | x :: l' => x :: filter (fun y => negb (eqb x y)) (unique eqb l')
  end.

(** [Series.isin(values)] at one cell. The selections hold labels only
    (the widget options are [dropna().unique()]), so NaN is in none. *)
Definition isin (v : option string) (values : list string) : bool :=
  match v with
  | Some s => existsb (String.eqb s) values
  | None => false
  end.

(** Element-wise [&] of two boolean Series. *)
Definition mask_and (m1 m2 : list bool) : list bool :=
  map (fun p => fst p && snd p) (combine m1 m2).

(** [df[mask]]: the rows whose mask entry is [True], in order. *)
Fixpoint select {A : Type} (df : list A) (mask : list bool) : list A :=
  match df, mask with
  | r :: df', b :: mask' =>
      if b then r :: select df' mask' else select df' mask'
  | _, _ => []
  end.

(** ** Filtering *)

(** The four sidebar multiselects. *)
Record FilterSet : Type := mkFilterSet {
  selected_age : list string;
  selected_edu : list string;
  selected_gender : list string;
  selected_income : list string
}.

(** The [default=] of every multiselect: all options selected. *)
Definition default_filters (df : list customer) : FilterSet :=
  {| selected_age := unique String.eqb (dropna (map age_group df));
     selected_edu := unique String.eqb (map education_level df);
     selected_gender := unique String.eqb (map gender df);
     selected_income := unique String.eqb (map income_category df) |}.

(** [df[category].isin(values)] as a boolean Series. *)
Definition isin_column (d : dimension) (values : list string)
  (df : list customer) : list bool :=
  map (fun r => isin (column d r) values) df.

(** [filtered_df]. *)
Definition apply_filters (df : list customer) (F : FilterSet) : list customer :=
  select df
    (mask_and
       (mask_and
          (mask_and (isin_column Gender (selected_gender F) df)
                    (isin_column IncomeCategory (selected_income F) df))
          (isin_column AgeGroup (selected_age F) df))
       (isin_column EducationLevel (selected_edu F) df)).

(** ** Count aggregation *)

Record count_row : Type := mkCountRow {
  cr_category : string;
  cr_flag : outcome;
  cr_count : Z
}.

Definition count_value (v : string) (l : list string) : Z :=
  Z.of_nat (List.length (filter (String.eqb v) l)).

(** The bars of [px.histogram(df, y=category, color='attrition_flag')]: one
    trace per value of the colour column, and in each trace one bin per
    category value occurring in it, holding the number of its rows. *)
Definition count_by (d : dimension) (df : list customer) : list count_row :=
  flat_map
    (fun o =>
       let trace := filter (fun r => outcome_eqb (attrition_flag r) o) df in
       let ys := dropna (map (column d) trace) in
       map (fun v => mkCountRow v o (count_value v ys))
           (unique String.eqb ys))
    (unique outcome_eqb (map attrition_flag df)).

(** ** Rate aggregation: [churn_rate_df] *)

(** A two-way table: row labels, column labels, and the cells row by row. *)
Record table (A : Type) : Type := mkTable {
  index : list string;
  columns : list outcome;
  values : list (list A)
}.
Arguments mkTable {A} _ _ _.
Arguments index {A} _.
Arguments columns {A} _.
Arguments values {A} _.

(** Sorting of the row labels (group keys are sorted). *)
Fixpoint insert_sorted (x : string) (l : list string) : list string :=
  match l with
  | [] => [x]
  | y :: l' => if String.leb x y then x :: l else y :: insert_sorted x l'
  end.

Definition sort_values (l : list string) : list string :=
  fold_right insert_sorted [] l.

(** The distinct outcomes of [l], sorted by name. *)
Definition sorted_outcomes (l : list outcome) : list outcome :=
  filter (fun o => existsb (outcome_eqb o) l) [Attrited; Existing].

(** The (row key, column key) pairs [crosstab] groups; a row whose key is
    NaN belongs to no group. *)
Definition observations (d : dimension) (df : list customer)
  : list (string * outcome) :=
  flat_map
    (fun r => match column d r with
              | Some v => [(v, attrition_flag r)]
              | None => []
              end) df.

Definition cell_count (obs : list (string * outcome)) (v : string) (o : outcome)
  : Z :=
  Z.of_nat (List.length
    (filter (fun p => String.eqb (fst p) v && outcome_eqb (snd p) o) obs)).

(** [pd.crosstab(df[category], df['attrition_flag'])] with the default
    [dropna=True]: the observed row keys and the observed column keys, both
    sorted, and the count of every (row, column) cell, 0 where the pair does
    not occur. *)
Definition crosstab (d : dimension) (df : list customer) : table Z :=
  let obs := observations d df in
  let idx := sort_values (unique String.eqb (map fst obs)) in
  let cols := sorted_outcomes (map snd obs) in
  mkTable idx cols
          (map (fun v => map (fun o => cell_count obs v o) cols) idx).

Definition sumZ (l : list Z) : Z := fold_right Z.add 0 l.

(** numpy's [rint]: the nearest integer, halves to the even one. *)
Definition rint (q : Q) : Z :=
  let f := Qfloor q in
  match (q - inject_Z f ?= 1 # 2)%Q with
  | Lt => f
  | Gt => f + 1
  | Eq => if Z.even f then f else f + 1
  end.

(** The position of the leading bit of [q <> 0]: the integer [k] with
    [2^k <= |q| < 2^(k+1)]. *)
Definition ilog2 (q : Q) : Z :=
  let k := Z.log2 (Z.abs (Qnum q)) - Z.log2 (Zpos (Qden q)) in
  if Qle_bool (2 ^ k) (Qabs q) then k else k - 1.

(** Rounding to the nearest binary64: [q] is scaled so that its leading bit
    is bit 52, rounded to an integer with ties to even, and scaled back. *)
Definition fl (q : Q) : Q :=
  if Qeq_bool q 0 then 0%Q
  else let e := ilog2 q - 52 in (inject_Z (rint (q / 2 ^ e)) * 2 ^ e)%Q.

Arguments fl : simpl never.

(** [normalize='index']: every cell over the sum of its row, both converted
    to float64, in float64 division. pandas fills the NaN of 0/0 with 0;
    [Qdiv] by 0 is 0 as well. *)
Definition normalize_index (t : table Z) : table Q :=
  mkTable (index t) (columns t)
          (map (fun row =>
                  let s := sumZ row in
                  map (fun c => fl (fl (inject_Z c) / fl (inject_Z s))%Q) row)
               (values t)).

(** [table * k], in float64 multiplication. *)
Definition scale (k : Q) (t : table Q) : table Q :=
  mkTable (index t) (columns t)
          (map (fun row => map (fun c => fl (c * k)%Q) row) (values t)).

(** [reset_index().melt(id_vars=category, ...)]: one row per cell, column
    after column, each column from the first row label to the last. *)
Definition melt (t : table Q) : list (string * outcome * Q) :=
  flat_map
    (fun jo =>
       map (fun iv => (fst iv, snd jo, nth (fst jo) (snd iv) 0%Q))
           (combine (index t) (values t)))
    (combine (seq 0 (List.length (columns t))) (columns t)).

(** [Series.round(1)] at one value: [rint(x * 10) / 10], the product and
    the quotient in float64. *)
Definition round1 (q : Q) : Q :=
  fl (inject_Z (rint (fl (q * 10))) / 10)%Q.

Definition string_of_Z (z : Z) : string :=
  NilZero.string_of_int (Z.to_int z).

(** [str] of a non-negative float64 that is the nearest one to a numeral
    with one decimal, such as [16.9]: that numeral. *)
Definition float_str (q : Q) : string :=
  let t := rint (q * 10) in
  (string_of_Z (t / 10) ++ "." ++ string_of_Z (t mod 10))%string.

Record rate_row : Type := mkRateRow {
  category : string;
  flag : outcome;
  percentage : Q;
  percentage_label : string
}.

Definition churn_rate_df (filtered_df : list customer) (d : dimension)
  : list rate_row :=
  let ct := scale 100 (normalize_index (crosstab d filtered_df)) in
  let ct := melt ct in
  let ct := map (fun r => (fst (fst r), snd (fst r), round1 (snd r))) ct in
  map (fun r => mkRateRow (fst (fst r)) (snd (fst r)) (snd r)
                          (float_str (snd r) ++ "%")%string) ct.

(** ** The page as a script run *)

(** [st.cache_data] keeps the data set read by the first run. *)
Record session : Type := mkSession {
  cached_data : option (list customer)
}.

(** [load_data()]: the cached frame when there is one, the file otherwise. *)
Definition load_data (csv : list customer) (s : session)
  : list customer * session :=
  match cached_data s with
  | Some df => (df, s)
  | None => (csv, mkSession (Some csv))
  end.

Record page_output : Type := mkPageOutput {
  filtered_df : list customer;
  count_tables : list (list count_row);
  rate_tables : list (list rate_row)
}.

(** The order of the chart tabs. *)
Definition dimensions : list dimension :=
  [AgeGroup; EducationLevel; IncomeCategory; Gender].

(** One run of the "Exploratory Data Analysis" page for the selections [F]. *)
Definition eda_page (csv : list customer) (F : FilterSet) (s : session)
  : page_output * session :=
  let (df, s') := load_data csv s in
  let fdf := apply_filters df F in
  (mkPageOutput fdf
                (map (fun d => count_by d fdf) dimensions)
                (map (fun d => churn_rate_df fdf d) dimensions),
   s').

(** ** Vocabulary of the specification *)

(** [l1] is a subsequence of [l2]: some elements dropped, order kept. *)
Inductive subseq {A : Type} : list A -> list A -> Prop :=
| subseq_nil : subseq [] []
| subseq_skip : forall x l1 l2, subseq l1 l2 -> subseq l1 (x :: l2)
| subseq_keep : forall x l1 l2, subseq l1 l2 -> subseq (x :: l1) (x :: l2).

(** A record passes [F]: each of its four category values is a member of
    the corresponding selection. *)
Definition passes (F : FilterSet) (r : customer) : Prop :=
  (exists g, age_group r = Some g /\ In g (selected_age F)) /\
  In (education_level r) (selected_edu F) /\
  In (gender r) (selected_gender F) /\
  In (income_category r) (selected_income F).

Definition customer_eq_dec (a b : customer) : {a = b} + {a <> b}.
Proof.
  decide equality; try apply string_dec; try apply Z.eq_dec.
  decide equality.
Defined.

(** The category value [v] is present in [df] along [d]. *)
Definition present (d : dimension) (df : list customer) (v : string) : Prop :=
  exists r, In r df /\ column d r = Some v.

(** The outcome [o] is observed in [df] among the rows with a value of [d]. *)
Definition observed (d : dimension) (df : list customer) (o : outcome) : Prop :=
  exists r, In r df /\ column d r <> None /\ attrition_flag r = o.

(** count(value, outcome): the rows of [df] with value [v] and outcome [o]. *)
Definition count_in (d : dimension) (df : list customer) (v : string)
  (o : outcome) : Z :=
  Z.of_nat (List.length
    (filter (fun r => isin (column d r) [v] && outcome_eqb (attrition_flag r) o)
            df)).

(** total_count(value): the rows of [df] with value [v]. *)
Definition total_in (d : dimension) (df : list customer) (v : string) : Z :=
  Z.of_nat (List.length (filter (fun r => isin (column d r) [v]) df)).

(** 100 * count(value, outcome) / total_count(value), unrounded. *)
Definition exact_percentage (d : dimension) (df : list customer) (v : string)
  (o : outcome) : Q :=
  (100 * inject_Z (count_in d df v o) / inject_Z (total_in d df v))%Q.

(** The sum of the percentages of the rows of the category value [v]. *)
Definition sum_percentages (v : string) (rows : list rate_row) : Q :=
  fold_right Qplus 0%Q
    (map percentage (filter (fun r => String.eqb (category r) v) rows)).

(** The combined mask of [filtered_df] at one row. *)
Definition keep (F : FilterSet) (r : customer) : bool :=
  isin (column Gender r) (selected_gender F)
  && isin (column IncomeCategory r) (selected_income F)
  && isin (column AgeGroup r) (selected_age F)
  && isin (column EducationLevel r) (selected_edu F).

(** Sample rows for the worked scenarios. *)
Definition sample (id age : Z) (o : outcome) (g : string) : customer :=
  mkCustomer id o age g "Graduate" "Unknown".

(** The rounded rate of a cell holding [c] of the [t] rows of its value. *)
Definition rate_of (c t : Z) : Q :=
  round1 (fl (fl (fl (inject_Z c) / fl (inject_Z t)) * 100))%Q.

Arguments rate_of : simpl never.

(** The float64 product [count / total * 100 * 10] that [round(1)] hands to
    [rint]. *)
Definition scaled_rate (c t : Z) : Q :=
  fl (fl (fl (fl (inject_Z c) / fl (inject_Z t)) * 100) * 10)%Q.

Arguments scaled_rate : simpl never.

(** The number of tenths a stored percentage stands for. *)
Definition tenths (r : rate_row) : Z := rint (percentage r * 10).

(** The sum of the tenths of the rows of the category value [v]. *)
Definition sum_tenths (v : string) (rows : list rate_row) : Z :=
  sumZ (map tenths (filter (fun r => String.eqb (category r) v) rows)).

(** The unit roundoff of binary64, [2^-53]. *)
Definition eps : Q := 1 # 9007199254740992.

(** A bound, [10^-12], on the float64 error accumulated by the page. *)
Definition tiny : Q := 1 # 1000000000000.

(** [x] lies between [lo] and [hi] times the exact value [a]. *)
Definition within (lo hi a x : Q) : Prop :=
  (lo * a <= x /\ x <= hi * a)%Q.

Definition rate_entry (v : string) (o : outcome) (c t : Z) : rate_row :=
  mkRateRow v o (rate_of c t) (float_str (rate_of c t) ++ "%")%string.

(** The worked scenario: two customers of 25, one of 45. *)
Definition scenario : list customer :=
  [sample 1 25 Existing "F"; sample 2 25 Attrited "F";
   sample 3 45 Existing "M"].

(** Sixteen customers of one gender, one of them attrited: 6.25%. *)
Definition sixteen : list customer :=
  sample 0 30 Attrited "F" :: repeat (sample 1 30 Existing "F") 15.

(** Eighty customers of one gender, 49 of them attrited: 61.25%. *)
Definition eighty : list customer :=
  repeat (sample 0 30 Attrited "F") 49 ++ repeat (sample 1 30 Existing "F") 31.

(** Two thousand customers of one gender, 3 of them attrited: 0.15%. *)
Definition two_thousand : list customer :=
  repeat (sample 0 30 Attrited "F") 3
  ++ repeat (sample 1 30 Existing "F") 1997.

(** ** Column names *)

(** [str.lower()] on one character of an ASCII name. *)
Definition lower_char (c : ascii) : ascii :=
  let n := N_of_ascii c in
  if ((65 <=? n) && (n <=? 90))%N then ascii_of_N (n + 32) else c.

(** [str.replace(' ', '_')] on one character. *)
Definition underscore_char (c : ascii) : ascii :=
  if Ascii.eqb c " " then "_"%char else c.

Fixpoint map_chars (f : ascii -> ascii) (s : string) : string :=
  match s with
  | EmptyString => EmptyString
  | String c s' => String (f c) (map_chars f s')
  end.

(** One entry of [df.columns.str.lower().str.replace(' ', '_')]. *)
Definition normalize_column (name : string) : string :=
  map_chars underscore_char (map_chars lower_char name).

Fixpoint all_chars (p : ascii -> bool) (s : string) : bool :=
  match s with
  | EmptyString => true
  | String c s' => p c && all_chars p s'
  end.

Definition is_ascii (c : ascii) : bool := (N_of_ascii c <? 128)%N.

Definition is_upper (c : ascii) : bool :=
  let n := N_of_ascii c in ((65 <=? n) && (n <=? 90))%N.

(** A name with no upper-case letter and no space. *)
Definition normalized (s : string) : bool :=
  all_chars (fun c => negb (is_upper c) && negb (Ascii.eqb c " ")) s.

(** ** The metric summary of the overview page *)

Definition total_customer (df : list customer) : Z :=
  Z.of_nat (List.length df).

Definition existing_customer (df : list customer) : Z :=
  Z.of_nat (List.length
    (filter (fun r => outcome_eqb (attrition_flag r) Existing) df)).

Definition attrited_customer (df : list customer) : Z :=
  Z.of_nat (List.length
    (filter (fun r => outcome_eqb (attrition_flag r) Attrited) df)).

(** [attrited_customer / total_customer * 100]; the division raises
    [ZeroDivisionError] on a zero total, which is [None] here. *)
Definition churn_rate (df : list customer) : option Q :=
  if total_customer df =? 0 then None
  else Some (inject_Z (attrited_customer df) / inject_Z (total_customer df)
             * 100)%Q.

(** The digits of a numeral, last digit first, with a comma after every
    third digit that has a digit left of it. *)
Fixpoint group_thousands (rev_digits : list ascii) : list ascii :=
  match rev_digits with
  | a :: b :: c :: ((_ :: _) as rest) =>
      a :: b :: c :: ","%char :: group_thousands rest
  | _ => rev_digits
  end.

(** [f"{n:,}"] for a count [n >= 0]. *)
Definition format_thousands (n : Z) : string :=
  string_of_list_ascii
    (rev (group_thousands (rev (list_ascii_of_string (string_of_Z n))))).

(** ** Churn distribution: [value_counts] *)

Definition count_outcome (o : outcome) (l : list outcome) : Z :=
  Z.of_nat (List.length (filter (outcome_eqb o) l)).

(** Insertion for a descending order of the counts that keeps, among equal
    counts, the value met first. *)
Fixpoint insert_desc (x : outcome * Z) (l : list (outcome * Z))
  : list (outcome * Z) :=
  match l with
  | [] => [x]
  | y :: l' => if snd y <=? snd x then x :: l else y :: insert_desc x l'
  end.

(** [Series.value_counts()]: the distinct values with their counts, the
    largest count first. *)
Definition value_counts (l : list outcome) : list (outcome * Z) :=
  fold_right insert_desc []
    (map (fun o => (o, count_outcome o l)) (unique outcome_eqb l)).

(** [churn_counts]. *)
Definition churn_counts (fdf : list customer) : list (outcome * Z) :=
  value_counts (map attrition_flag fdf).

(** ** More vocabulary *)

(** [F] selects no more than [G] in every dimension. *)
Definition narrower (F G : FilterSet) : Prop :=
  incl (selected_age F) (selected_age G) /\
  incl (selected_edu F) (selected_edu G) /\
  incl (selected_gender F) (selected_gender G) /\
  incl (selected_income F) (selected_income G).

Definition has_age_group (r : customer) : bool :=
  match age_group r with Some _ => true | None => false end.

Definition sum_counts (rows : list count_row) : Z :=
  sumZ (map cr_count rows).

(** The row has a value (not NaN) in the column of [d]. *)
Definition has_value (d : dimension) (r : customer) : bool :=
  match column d r with Some _ => true | None => false end.

(** Ascending order of the row labels. *)
Definition ascending (l : list string) : Prop :=
  Sorted (fun a b => String.leb a b = true) l.

(** Descending order of the counts. *)
Definition descending (l : list (outcome * Z)) : Prop :=
  Sorted (fun a b => snd b <= snd a) l.

(** Removing the commas of a formatted number. *)
Fixpoint strip_commas (s : string) : string :=
  match s with
  | EmptyString => EmptyString
  | String c s' =>
      if Ascii.eqb c "," then strip_commas s' else String c (strip_commas s')
  end.

(** A character other than the thousands separator. *)
Definition not_comma (c : ascii) : bool := negb (Ascii.eqb c ",").

(** A numeral without a decimal point. *)
Definition no_dot (s : string) : bool :=
  all_chars (fun c => negb (Ascii.eqb c ".")) s.

(** ** The machine's binary64, for comparison *)

(** The rational number a primitive binary64 float denotes. *)
Definition Q_of_binary64 (x : float) : Q :=
  match Prim2SF x with
  | S754_finite s m e =>
      ((if s then -1 else 1) * inject_Z (Zpos m) * 2 ^ e)%Q
  | _ => 0%Q
  end.

Definition binary64_of_Z (n : Z) : float :=
  PrimFloat.of_uint63 (Uint63.of_Z n).

(** [count / total * 100 * 10] in the primitive binary64 arithmetic. *)
Definition machine_scaled_rate (c t : Z) : float :=
  (binary64_of_Z c / binary64_of_Z t * 100 * 10)%float.

(** [scaled_rate] agrees with the primitive arithmetic for every count out
    of the total [t]. *)
Definition agrees_up_to (t : Z) : bool :=
  forallb (fun c => Qeq_bool (Q_of_binary64 (machine_scaled_rate c t))
                             (scaled_rate c t))
          (map Z.of_nat (seq 0 (S (Z.to_nat t)))).

(** * Proofs *)

(** ** Outcomes and Series helpers *)

Lemma outcome_eqb_spec (a b : outcome) : reflect (a = b) (outcome_eqb a b).
Proof. destruct a, b; simpl; constructor; congruence. Qed.

Lemma outcome_eqb_eq (a b : outcome) : outcome_eqb a b = true <-> a = b.
Proof. destruct (outcome_eqb_spec a b); split; congruence. Qed.

Lemma outcome_eqb_refl (a : outcome) : outcome_eqb a a = true.
Proof. now destruct a. Qed.

Section Unique.
Context {A : Type} (eqb : A -> A -> bool).
Hypothesis eqb_eq : forall x y, eqb x y = true <-> x = y.

Lemma unique_In (l : list A) (x : A) : In x (unique eqb l) <-> In x l.
Proof.
  induction l as [|y l IH]; simpl; [tauto|].
  rewrite filter_In, IH.
  destruct (eqb y x) eqn:E; simpl.
  - apply eqb_eq in E. intuition congruence.
  - assert (y <> x) by (intros ->; rewrite (proj2 (eqb_eq x x) eq_refl) in E;
                        discriminate).
    intuition congruence.
Qed.

Lemma unique_NoDup (l : list A) : NoDup (unique eqb l).
Proof.
  induction l as [|y l IH]; simpl; constructor.
  - rewrite filter_In. intros [_ H].
    rewrite (proj2 (eqb_eq y y) eq_refl) in H. discriminate.
  - now apply NoDup_filter.
Qed.
End Unique.

Lemma dropna_In (l : list (option string)) (s : string) :
  In s (dropna l) <-> In (Some s) l.
Proof.
  unfold dropna. rewrite in_flat_map. split.
  - intros [[x|] [Hx Hs]]; simpl in Hs; [|tauto].
    destruct Hs as [->|[]]. exact Hx.
  - intros H. exists (Some s). simpl. auto.
Qed.

Lemma existsb_eqb_In (s : string) (l : list string) :
  existsb (String.eqb s) l = true <-> In s l.
Proof.
  rewrite existsb_exists. split.
  - intros [x [Hx E]]. apply String.eqb_eq in E. now subst.
  - intros H. exists s. split; [exact H|apply String.eqb_refl].
Qed.

Lemma isin_true (v : option string) (sel : list string) :
  isin v sel = true <-> exists s, v = Some s /\ In s sel.
Proof.
  destruct v as [s|]; simpl.
  - rewrite existsb_eqb_In. split.
    + intros H. now exists s.
    + intros [s' [E H]]. now inversion E; subst.
  - split; [discriminate|]. intros [s [E _]]. discriminate.
Qed.

Lemma isin_single (v : option string) (s : string) :
  isin v [s] = true <-> v = Some s.
Proof.
  rewrite isin_true. split.
  - intros [s' [E [->|[]]]]. exact E.
  - intros ->. exists s. simpl. auto.
Qed.

Lemma isin_nil (v : option string) : isin v [] = false.
Proof. now destruct v. Qed.

(** ** Age grouping *)

Lemma assign_age_group_cases (a : Z) :
  assign_age_group a =
    if (20 <=? a) && (a <? 40) then Some "20-39"
    else if (40 <=? a) && (a <? 50) then Some "40-49"
    else if (50 <=? a) && (a <? 60) then Some "50-59"
    else if (60 <=? a) && (a <? 79) then Some "60-79"
    else None.
Proof.
  unfold assign_age_group, bins, labels; simpl.
  repeat (match goal with |- context [if ?b then _ else _] => destruct b end;
          try reflexivity).
Qed.

Ltac age_cases a :=
  rewrite (assign_age_group_cases a);
  destruct (Z.leb_spec 20 a), (Z.ltb_spec a 40), (Z.leb_spec 40 a),
    (Z.ltb_spec a 50), (Z.leb_spec 50 a), (Z.ltb_spec a 60),
    (Z.leb_spec 60 a), (Z.ltb_spec a 79); simpl.

Lemma assign_age_group_undefined (a : Z) :
  assign_age_group a = None <-> a < 20 \/ 78 < a.
Proof. age_cases a; split; intros Hg; try discriminate; try lia; auto. Qed.

Lemma assign_age_group_bucket (a : Z) (g : string) :
  assign_age_group a = Some g <->
  (g = "20-39" /\ 20 <= a < 40) \/ (g = "40-49" /\ 40 <= a < 50) \/
  (g = "50-59" /\ 50 <= a < 60) \/ (g = "60-79" /\ 60 <= a < 79).
Proof.
  age_cases a;
    (split; [intros Hg; inversion Hg; subst; clear Hg; try lia; intuition lia
            |intros [[-> Hg]|[[-> Hg]|[[-> Hg]|[-> Hg]]]];
             try lia; reflexivity]).
Qed.

(** C1. The code leaves age 79 without a group: [right=False] makes the last
    interval [60 <= a < 79], so [assign_age_group] is undefined exactly for
    [a < 20] or [a > 78], and every age from 20 to 78 falls in exactly one
    of the four buckets. *)
Theorem age_79_has_no_group :
  assign_age_group 79 = None /\
  (forall a, assign_age_group a = None <-> a < 20 \/ a > 78) /\
  (forall a, 20 <= a <= 78 ->
     exists g, assign_age_group a = Some g /\ In g labels /\
       forall g', assign_age_group a = Some g' -> g' = g).
Proof.
  split; [reflexivity|]. split.
  - intros a. rewrite assign_age_group_undefined. lia.
  - intros a Ha.
    destruct (assign_age_group a) as [g|] eqn:E.
    + exists g. split; [reflexivity|]. split; [|congruence].
      apply assign_age_group_bucket in E. unfold labels. simpl.
      intuition.
    + apply assign_age_group_undefined in E. lia.
Qed.

(** ** Filtering *)

Lemma mask_and_map {A : Type} (f g : A -> bool) (l : list A) :
  mask_and (map f l) (map g l) = map (fun r => f r && g r) l.
Proof.
  unfold mask_and. induction l as [|x l IH]; simpl; [reflexivity|].
  now rewrite IH.
Qed.

Lemma select_map {A : Type} (f : A -> bool) (l : list A) :
  select l (map f l) = filter f l.
Proof.
  induction l as [|x l IH]; simpl; [reflexivity|].
  rewrite IH. reflexivity.
Qed.

Lemma apply_filters_filter (df : list customer) (F : FilterSet) :
  apply_filters df F = filter (keep F) df.
Proof.
  unfold apply_filters, isin_column.
  rewrite !mask_and_map. apply select_map.
Qed.

Lemma keep_passes (F : FilterSet) (r : customer) :
  keep F r = true <-> passes F r.
Proof.
  unfold keep, passes, column. rewrite !andb_true_iff, !isin_true.
  split.
  - intros [[[[g [Eg Hg]] [i [Ei Hi]]] Ha] [e [Ee He]]].
    inversion Eg; inversion Ei; inversion Ee; subst. tauto.
  - intros [Ha [He [Hg Hi]]]. repeat split; eauto.
Qed.

Lemma keep_undefined_age (F : FilterSet) (r : customer) :
  age_group r = None -> keep F r = false.
Proof.
  intros E. unfold keep. simpl. rewrite E. simpl.
  now rewrite andb_false_r.
Qed.

Lemma subseq_filter {A : Type} (f : A -> bool) (l : list A) :
  subseq (filter f l) l.
Proof.
  induction l as [|x l IH]; simpl; [constructor|].
  destruct (f x); now constructor.
Qed.

Lemma count_occ_filter {A : Type} (dec : forall a b : A, {a = b} + {a <> b})
  (f : A -> bool) (l : list A) (x : A) :
  f x = true -> count_occ dec (filter f l) x = count_occ dec l x.
Proof.
  intros Hx. induction l as [|y l IH]; simpl; [reflexivity|].
  destruct (dec y x) as [->|N].
  - rewrite Hx. simpl. destruct (dec x x); congruence.
  - destruct (f y); simpl; [destruct (dec y x); congruence|exact IH].
Qed.

(** C7. [apply_filters df F] is a subsequence of [df]; a record is in it
    iff it is in [df] and passes [F] (each of its age group, education level,
    gender and income category is a member of its selection); and a passing
    record keeps its multiplicity (no deduplication). *)
Theorem apply_filters_subsequence (df : list customer) (F : FilterSet) :
  subseq (apply_filters df F) df /\
  (forall r, In r (apply_filters df F) <-> In r df /\ passes F r) /\
  (forall r, passes F r ->
     count_occ customer_eq_dec (apply_filters df F) r =
     count_occ customer_eq_dec df r).
Proof.
  rewrite apply_filters_filter. split; [apply subseq_filter|]. split.
  - intros r. rewrite filter_In, keep_passes. tauto.
  - intros r Hr. apply count_occ_filter. now apply keep_passes.
Qed.

(** C8. Filtering an empty record sequence, or filtering with a FilterSet
    in which some dimension's selection is empty, yields no record. *)
Theorem apply_filters_empty (df : list customer) (F : FilterSet) :
  df = [] \/ selected_age F = [] \/ selected_edu F = [] \/
  selected_gender F = [] \/ selected_income F = [] ->
  apply_filters df F = [].
Proof.
  rewrite apply_filters_filter.
  intros [->|H]; [reflexivity|].
  assert (K : forall r, keep F r = false).
  { intros r. unfold keep.
    destruct H as [H|[H|[H|H]]]; rewrite H, isin_nil;
      rewrite ?andb_false_r; reflexivity. }
  induction df as [|r df IH]; simpl; [reflexivity|].
  now rewrite K.
Qed.

Lemma apply_filters_empty_witness :
  apply_filters [sample 1 25 Existing "F"; sample 2 45 Attrited "M"]
                (mkFilterSet ["20-39"; "40-49"] ["Graduate"] [] ["Unknown"])
  = [].
Proof.
  apply apply_filters_empty. right. right. right. left. reflexivity.
Defined.

(** C2, as the code has it. A record whose age has no group passes no
    FilterSet, the all-inclusive one included: it is dropped from
    [filtered_df], and every count table and rate table, of the age group
    or of any other dimension, is the one of the data set without it. *)
Theorem undefined_age_excluded_everywhere
  (df1 df2 : list customer) (r : customer) (F : FilterSet) :
  age_group r = None ->
  ~ In r (apply_filters (df1 ++ r :: df2) F) /\
  apply_filters (df1 ++ r :: df2) F = apply_filters (df1 ++ df2) F /\
  forall d,
    count_by d (apply_filters (df1 ++ r :: df2) F) =
    count_by d (apply_filters (df1 ++ df2) F) /\
    churn_rate_df (apply_filters (df1 ++ r :: df2) F) d =
    churn_rate_df (apply_filters (df1 ++ df2) F) d.
Proof.
  intros E.
  assert (K : apply_filters (df1 ++ r :: df2) F = apply_filters (df1 ++ df2) F).
  { rewrite !apply_filters_filter, !filter_app. simpl.
    now rewrite (keep_undefined_age F r E). }
  split; [|split; [exact K|intros d; now rewrite K]].
  rewrite apply_filters_filter, filter_In.
  rewrite (keep_undefined_age F r E). intros [_ H]. discriminate.
Qed.

Lemma undefined_age_excluded_everywhere_witness :
  let df := [sample 1 25 Existing "F"; sample 2 15 Existing "M"] in
  count_by Gender (apply_filters df (default_filters df)) =
  count_by Gender
    (apply_filters [sample 1 25 Existing "F"] (default_filters df)).
Proof.
  exact (proj1 (proj2 (proj2
    (undefined_age_excluded_everywhere
       [sample 1 25 Existing "F"] [] (sample 2 15 Existing "M")
       (default_filters [sample 1 25 Existing "F"; sample 2 15 Existing "M"])
       eq_refl)) Gender)).
Defined.

(** C2, as stated, fails: with every option selected, the record of age 15
    is in no age-group table, and it is not counted in the gender tables
    either (they hold no row for its gender "M"). *)
Lemma age_15_not_counted_by_gender :
  let r := sample 2 15 Existing "M" in
  let df := [sample 1 25 Existing "F"; r] in
  let fdf := apply_filters df (default_filters df) in
  In r df /\ age_group r = None /\
  keep (default_filters df) (sample 1 25 Existing "F") = true /\
  fdf = [sample 1 25 Existing "F"] /\
  count_by AgeGroup fdf = [mkCountRow "20-39" Existing 1] /\
  count_by Gender fdf = [mkCountRow "F" Existing 1] /\
  map (fun row => (category row, flag row, percentage_label row))
      (churn_rate_df fdf Gender) = [("F", Existing, "100.0%")].
Proof.
  vm_compute. repeat split; auto.
Qed.

(** ** Rounding to the nearest integer *)

Section Rint.
Local Open Scope Q_scope.

Ltac qz := rewrite ?inject_Z_plus, ?inject_Z_opp in *;
           change (inject_Z 1) with 1 in *.

Lemma rint_floor_cases (q : Q) :
  let f := Qfloor q in
  (q - inject_Z f < 1#2 /\ rint q = f) \/
  (1#2 < q - inject_Z f /\ rint q = (f + 1)%Z) \/
  (q - inject_Z f == 1#2 /\ rint q = if Z.even f then f else (f + 1)%Z).
Proof.
  intros f. unfold rint. fold f.
  destruct (Qcompare_spec (q - inject_Z f) (1#2)) as [H|H|H]; auto.
Qed.

Lemma rint_near (q : Q) :
  inject_Z (rint q) - (1#2) <= q /\ q <= inject_Z (rint q) + (1#2).
Proof.
  pose proof (Qfloor_le q) as Hlo. pose proof (Qlt_floor q) as Hhi.
  destruct (rint_floor_cases q) as [[H ->]|[[H ->]|[H ->]]];
    [| |destruct (Z.even (Qfloor q))];
    qz; split; lra.
Qed.

Lemma rint_tie_even (q : Q) :
  q - inject_Z (rint q) == 1#2 \/ inject_Z (rint q) - q == 1#2 ->
  Z.even (rint q) = true.
Proof.
  pose proof (Qfloor_le q) as Hlo. pose proof (Qlt_floor q) as Hhi.
  destruct (rint_floor_cases q) as [[H E]|[[H E]|[H E]]]; rewrite E;
    intros [T|T]; qz; try lra;
    destruct (Z.even (Qfloor q)) eqn:Ev; try exact Ev; qz; try lra.
  rewrite Z.even_add, Ev. reflexivity.
Qed.

Lemma rint_unique (q : Q) (m : Z) :
  inject_Z m - (1#2) <= q -> q <= inject_Z m + (1#2) ->
  (q - inject_Z m == 1#2 \/ inject_Z m - q == 1#2 -> Z.even m = true) ->
  rint q = m.
Proof.
  intros Hlo Hhi Hev.
  destruct (rint_near q) as [Rlo Rhi].
  pose proof (rint_tie_even q) as Rev.
  set (k := rint q) in *.
  destruct (Z.lt_trichotomy k m) as [L|[E|L]]; [|exact E|]; exfalso.
  - assert (L' : (k + 1 <= m)%Z) by lia.
    rewrite Zle_Qle in L'. qz.
    assert (Ek : q - inject_Z k == 1#2) by lra.
    assert (Em : inject_Z m - q == 1#2) by lra.
    assert (M : m = (k + 1)%Z) by (apply inject_Z_injective; qz; lra).
    specialize (Rev (or_introl Ek)). specialize (Hev (or_intror Em)).
    rewrite M, Z.even_add, Rev in Hev. discriminate.
  - assert (L' : (m + 1 <= k)%Z) by lia.
    rewrite Zle_Qle in L'. qz.
    assert (Ek : inject_Z k - q == 1#2) by lra.
    assert (Em : q - inject_Z m == 1#2) by lra.
    assert (M : k = (m + 1)%Z) by (apply inject_Z_injective; qz; lra).
    specialize (Rev (or_intror Ek)). specialize (Hev (or_introl Em)).
    rewrite M, Z.even_add, Hev in Rev. discriminate.
Qed.

Lemma rint_comp (p q : Q) : p == q -> rint p = rint q.
Proof.
  intros E. apply rint_unique.
  - destruct (rint_near q). lra.
  - destruct (rint_near q). lra.
  - intros T. apply rint_tie_even. lra.
Qed.

Lemma rint_inject_Z (z : Z) : rint (inject_Z z) = z.
Proof.
  apply rint_unique; lra.
Qed.

End Rint.

(** ** Rounding to the nearest binary64 *)

Section Binary64.
Local Open Scope Q_scope.

Lemma pow2_pos (e : Z) : 0 < 2 ^ e.
Proof. now apply Qpower_0_lt. Qed.

Lemma pow2_plus (a b : Z) : 2 ^ (a + b) == 2 ^ a * 2 ^ b.
Proof. apply Qpower_plus. discriminate. Qed.

Lemma pow2_log2 (a : Z) :
  (0 < a)%Z -> 2 ^ Z.log2 a <= inject_Z a /\ inject_Z a < 2 * 2 ^ Z.log2 a.
Proof.
  intros Ha. destruct (Z.log2_spec a Ha) as [L U].
  pose proof (Z.log2_nonneg a) as N.
  rewrite <- (pow2_plus 1 (Z.log2 a)) at 1.
  change (2 : Q) with (inject_Z 2).
  rewrite <- !Zpower_Qpower by lia.
  rewrite <- Zle_Qle, <- Zlt_Qlt.
  replace (1 + Z.log2 a)%Z with (Z.succ (Z.log2 a)) by lia. lia.
Qed.

Lemma ilog2_spec (q : Q) :
  ~ q == 0 -> 2 ^ ilog2 q <= Qabs q /\ Qabs q < 2 * 2 ^ ilog2 q.
Proof.
  intros Hq. unfold ilog2.
  set (k := (Z.log2 (Z.abs (Qnum q)) - Z.log2 (Z.pos (Qden q)))%Z).
  destruct (Qle_bool (2 ^ k) (Qabs q)) eqn:T.
  - apply Qle_bool_iff in T. split; [exact T|].
    destruct q as [n d]. unfold k. simpl Qnum. simpl Qden.
    assert (Hn : (0 < Z.abs n)%Z).
    { destruct n; simpl; try lia. exfalso. apply Hq. reflexivity. }
    destruct (pow2_log2 _ Hn) as [_ Un].
    destruct (pow2_log2 (Z.pos d) eq_refl) as [Ld _].
    pose proof (pow2_pos (Z.log2 (Z.abs n))) as Pn.
    pose proof (pow2_pos (Z.log2 (Z.pos d))) as Pd.
    unfold Z.sub. rewrite pow2_plus, Qpower_opp.
    change (Qabs (n # d)) with (Z.abs n # d). rewrite (Qmake_Qdiv (Z.abs n) d).
    set (A := inject_Z (Z.abs n)) in *. set (D := inject_Z (Z.pos d)) in *.
    set (PA := 2 ^ Z.log2 (Z.abs n)) in *. set (PD := 2 ^ Z.log2 (Z.pos d)) in *.
    assert (HD : 0 < D) by lra.
    apply Qlt_shift_div_r; [exact HD|].
    assert (E : 2 * (PA * / PD) * D == 2 * PA * (D / PD)) by (field; lra).
    rewrite E.
    assert (1 <= D / PD) by (apply Qle_shift_div_l; lra).
    nra.
  - assert (T' : Qabs q < 2 ^ k).
    { apply Qnot_le_lt. intros H. apply Qle_bool_iff in H. congruence. }
    replace k with ((k - 1) + 1)%Z in T' at 1 by lia.
    rewrite pow2_plus in T'. change (2 ^ 1) with 2 in T'.
    split; [|lra].
    destruct q as [n d]. unfold k. simpl Qnum. simpl Qden.
    assert (Hn : (0 < Z.abs n)%Z).
    { destruct n; simpl; try lia. exfalso. apply Hq. reflexivity. }
    destruct (pow2_log2 _ Hn) as [Ln _].
    destruct (pow2_log2 (Z.pos d) eq_refl) as [_ Ud].
    pose proof (pow2_pos (Z.log2 (Z.abs n))) as Pn.
    pose proof (pow2_pos (Z.log2 (Z.pos d))) as Pd.
    replace (Z.log2 (Z.abs n) - Z.log2 (Z.pos d) - 1)%Z
      with (Z.log2 (Z.abs n) + - Z.log2 (Z.pos d) + - (1))%Z by lia.
    rewrite !pow2_plus, !Qpower_opp. change (2 ^ 1) with 2.
    change (Qabs (n # d)) with (Z.abs n # d). rewrite (Qmake_Qdiv (Z.abs n) d).
    set (A := inject_Z (Z.abs n)) in *. set (D := inject_Z (Z.pos d)) in *.
    set (PA := 2 ^ Z.log2 (Z.abs n)) in *. set (PD := 2 ^ Z.log2 (Z.pos d)) in *.
    assert (HD : 0 < D) by (unfold D; reflexivity).
    apply Qle_shift_div_l; [exact HD|].
    assert (E : PA * / PD * / 2 * D == PA * (D / (2 * PD))) by (field; lra).
    rewrite E.
    assert (D / (2 * PD) <= 1) by (apply Qle_shift_div_r; lra).
    nra.
Qed.

Lemma fl_zero : fl 0 = 0.
Proof. reflexivity. Qed.

Lemma fl_error (q : Q) : 0 <= q -> q - q * eps <= fl q /\ fl q <= q + q * eps.
Proof.
  intros Hq. unfold fl. destruct (Qeq_bool q 0) eqn:Z0.
  - apply Qeq_bool_iff in Z0. rewrite Z0. split; discriminate.
  - apply Qeq_bool_neq in Z0. cbv zeta.
    destruct (ilog2_spec q Z0) as [L _]. rewrite (Qabs_pos q Hq) in L.
    pose proof (pow2_pos (ilog2 q)) as HP.
    assert (Es : 2 ^ (ilog2 q - 52) == 2 ^ ilog2 q * (1 # 4503599627370496)).
    { unfold Z.sub. rewrite pow2_plus. reflexivity. }
    pose proof (pow2_pos (ilog2 q - 52)) as Hs.
    set (P := 2 ^ ilog2 q) in *. set (s := 2 ^ (ilog2 q - 52)) in *.
    destruct (rint_near (q / s)) as [Lo Hi].
    set (M := inject_Z (rint (q / s))) in *.
    assert (E : q / s * s == q) by (field; lra).
    assert (B1 : (M - (1 # 2)) * s <= q / s * s) by nra.
    assert (B2 : q / s * s <= (M + (1 # 2)) * s) by nra.
    rewrite E in B1, B2. unfold eps. split; nra.
Qed.

Lemma within_fl (lo hi a x : Q) :
  0 <= lo -> 0 <= a -> within lo hi a x ->
  within (lo * (1 - eps)) (hi * (1 + eps)) a (fl x).
Proof.
  unfold within. intros Hlo Ha [L U].
  assert (Hx : 0 <= x) by nra.
  destruct (fl_error x Hx) as [FL FU].
  assert (E0 : 0 < eps) by reflexivity. assert (E1 : eps < 1) by reflexivity.
  split; nra.
Qed.

Lemma within_scale (lo hi a x k : Q) :
  0 <= k -> within lo hi a x -> within lo hi (a * k) (x * k).
Proof. unfold within. intros Hk [L U]. split; nra. Qed.

Lemma within_div (lo1 hi1 lo2 hi2 a b x y : Q) :
  0 <= lo1 -> 0 < lo2 -> 0 <= a -> 0 < b ->
  within lo1 hi1 a x -> within lo2 hi2 b y ->
  within (lo1 / hi2) (hi1 / lo2) (a / b) (x / y).
Proof.
  unfold within. intros H1 H2 Ha Hb [L1 U1] [L2 U2].
  assert (Hy : 0 < y) by nra.
  assert (Hh2 : 0 < hi2) by nra.
  assert (Hab : 0 <= a / b) by (apply Qle_shift_div_l; lra).
  assert (Eab : a / b * b == a) by (field; lra).
  split.
  - apply Qle_shift_div_l; [exact Hy|].
    assert (E : lo1 / hi2 * (a / b) * y == lo1 * (a / b) * (y / hi2))
      by (field; lra).
    rewrite E.
    assert (Y : y / hi2 <= b) by (apply Qle_shift_div_r; lra).
    assert (Y0 : 0 <= y / hi2) by (apply Qle_shift_div_l; lra).
    assert (K : 0 <= lo1 * (a / b)) by nra.
    nra.
  - apply Qle_shift_div_r; [exact Hy|].
    assert (E : hi1 / lo2 * (a / b) * y == hi1 * (a / b) * (y / lo2))
      by (field; lra).
    rewrite E.
    assert (Y : b <= y / lo2) by (apply Qle_shift_div_l; lra).
    assert (K : 0 <= hi1 * (a / b)).
    { assert (0 <= hi1 * a) by nra.
      assert (E2 : hi1 * (a / b) == hi1 * a / b) by (field; lra).
      rewrite E2. apply Qle_shift_div_l; lra. }
    nra.
Qed.

Lemma within_refl (a : Q) : within 1 1 a a.
Proof. unfold within. split; lra. Qed.

Lemma scaled_rate_near (c t : Z) :
  (0 <= c <= t)%Z -> (0 < t)%Z ->
  inject_Z c / inject_Z t * 100 * 10 - tiny <= scaled_rate c t /\
  scaled_rate c t <= inject_Z c / inject_Z t * 100 * 10 + tiny.
Proof.
  intros Hc Ht.
  assert (C0 : 0 <= inject_Z c)
    by (change 0 with (inject_Z 0); rewrite <- Zle_Qle; lia).
  assert (T0 : 0 < inject_Z t)
    by (change 0 with (inject_Z 0); rewrite <- Zlt_Qlt; lia).
  assert (CT : inject_Z c <= inject_Z t) by (rewrite <- Zle_Qle; lia).
  assert (L0 : 0 < 1 - eps) by reflexivity.
  assert (L1 : 0 <= 1 * (1 - eps)) by discriminate.
  assert (L2 : 0 < 1 * (1 - eps)) by reflexivity.
  pose proof (within_fl 1 1 _ _ ltac:(lra) C0 (within_refl (inject_Z c))) as Wc.
  pose proof (within_fl 1 1 _ _ ltac:(lra) (Qlt_le_weak _ _ T0)
                (within_refl (inject_Z t))) as Wt.
  pose proof (within_div _ _ _ _ _ _ _ _ L1 L2 C0 T0 Wc Wt) as Wd.
  assert (R0 : 0 <= inject_Z c / inject_Z t) by (apply Qle_shift_div_l; lra).
  assert (R1 : inject_Z c / inject_Z t <= 1) by (apply Qle_shift_div_r; lra).
  apply within_fl in Wd; [|discriminate|exact R0].
  apply (within_scale _ _ _ _ 100) in Wd; [|discriminate].
  apply within_fl in Wd; [|discriminate|lra].
  apply (within_scale _ _ _ _ 10) in Wd; [|discriminate].
  apply within_fl in Wd; [|discriminate|lra].
  fold (scaled_rate c t) in Wd. destruct Wd as [L U].
  set (rho := inject_Z c / inject_Z t * 100 * 10) in *.
  assert (Rh : 0 <= rho <= 1000) by (unfold rho; split; lra).
  set (lo := 1 * (1 - eps) / (1 * (1 + eps)) * (1 - eps) * (1 - eps) * (1 - eps)) in *.
  set (hi := 1 * (1 + eps) / (1 * (1 - eps)) * (1 + eps) * (1 + eps) * (1 + eps)) in *.
  assert (Hlo : 1 - (1 # 1000000000000000) <= lo)
    by (apply Qle_bool_imp_le; vm_compute; reflexivity).
  assert (Hhi : hi <= 1 + (1 # 1000000000000000))
    by (apply Qle_bool_imp_le; vm_compute; reflexivity).
  unfold tiny. split; nra.
Qed.

End Binary64.

(** ** Tables *)

Lemma map_flat_map {A B C : Type} (f : B -> C) (g : A -> list B) (l : list A) :
  map f (flat_map g l) = flat_map (fun x => map f (g x)) l.
Proof.
  induction l as [|x l IH]; simpl; [reflexivity|].
  now rewrite map_app, IH.
Qed.

Lemma combine_map_r {A B : Type} (h : A -> B) (l : list A) :
  combine l (map h l) = map (fun v => (v, h v)) l.
Proof.
  induction l as [|x l IH]; simpl; [reflexivity|]. now rewrite IH.
Qed.

Lemma melt_columns (idx : list string) (g : string -> outcome -> Q)
  (pre cols : list outcome) :
  flat_map
    (fun jo => map (fun iv => (fst iv, snd jo, nth (fst jo) (snd iv) 0%Q))
                   (map (fun v => (v, map (g v) (pre ++ cols))) idx))
    (combine (seq (List.length pre) (List.length cols)) cols)
  = flat_map (fun o => map (fun v => (v, o, g v o)) idx) cols.
Proof.
  revert pre. induction cols as [|o cols IH]; intros pre; simpl;
    [reflexivity|].
  f_equal.
  - rewrite map_map. apply map_ext. intros v. simpl.
    rewrite map_app, app_nth2; rewrite length_map; [|lia].
    now rewrite Nat.sub_diag.
  - specialize (IH (pre ++ [o])).
    rewrite length_app, <- app_assoc in IH. simpl in IH.
    rewrite Nat.add_1_r in IH. exact IH.
Qed.

Lemma melt_tabulated (idx : list string) (cols : list outcome)
  (g : string -> outcome -> Q) :
  melt (mkTable idx cols (map (fun v => map (g v) cols) idx))
  = flat_map (fun o => map (fun v => (v, o, g v o)) idx) cols.
Proof.
  unfold melt. simpl. rewrite combine_map_r.
  apply (melt_columns idx g [] cols).
Qed.

Lemma churn_rate_df_cells (df : list customer) (d : dimension) :
  churn_rate_df df d =
  let obs := observations d df in
  let cols := sorted_outcomes (map snd obs) in
  flat_map
    (fun o =>
       map (fun v => rate_entry v o (cell_count obs v o)
                                (sumZ (map (cell_count obs v) cols)))
           (sort_values (unique String.eqb (map fst obs))))
    cols.
Proof.
  unfold churn_rate_df, crosstab, normalize_index, scale. simpl.
  set (obs := observations d df).
  set (cols := sorted_outcomes (map snd obs)).
  set (idx := sort_values (unique String.eqb (map fst obs))).
  rewrite !map_map.
  rewrite (map_ext _
    (fun v => map (fun o =>
       fl (fl (fl (inject_Z (cell_count obs v o)) /
               fl (inject_Z (sumZ (map (cell_count obs v) cols)))) * 100)%Q)
       cols));
    [|intros v; now rewrite !map_map].
  rewrite melt_tabulated, !map_flat_map.
  apply flat_map_ext. intros o. rewrite !map_map.
  apply map_ext. intros v. unfold rate_entry, rate_of. cbn [fst snd].
  reflexivity.
Qed.

(** ** Row and column keys of the cross tabulation *)

Lemma insert_sorted_perm (x : string) (l : list string) :
  Permutation (insert_sorted x l) (x :: l).
Proof.
  induction l as [|y l IH]; simpl; [reflexivity|].
  destruct (String.leb x y); [reflexivity|].
  rewrite IH. apply perm_swap.
Qed.

Lemma sort_values_perm (l : list string) : Permutation (sort_values l) l.
Proof.
  induction l as [|x l IH]; simpl; [reflexivity|].
  rewrite insert_sorted_perm. now constructor.
Qed.

Lemma observations_In (d : dimension) (df : list customer) (v : string)
  (o : outcome) :
  In (v, o) (observations d df) <->
  exists r, In r df /\ column d r = Some v /\ attrition_flag r = o.
Proof.
  unfold observations. rewrite in_flat_map. split.
  - intros [r [Hr H]]. exists r. destruct (column d r) as [s|]; simpl in H;
      [|tauto].
    destruct H as [H|[]]. inversion H; subst. auto.
  - intros [r [Hr [E1 E2]]]. exists r. rewrite E1, E2. simpl. auto.
Qed.

Lemma index_In (d : dimension) (df : list customer) (v : string) :
  In v (sort_values (unique String.eqb (map fst (observations d df)))) <->
  present d df v.
Proof.
  unfold present. split.
  - intros H. apply (Permutation_in _ (sort_values_perm _)) in H.
    apply (proj1 (unique_In _ String.eqb_eq _ _)) in H.
    apply in_map_iff in H.
    destruct H as [[v' o] [E H]]. simpl in E. subst v'.
    apply observations_In in H. destruct H as [r [Hr [E _]]]. eauto.
  - intros [r [Hr E]].
    apply (Permutation_in _ (Permutation_sym (sort_values_perm _))).
    apply (proj2 (unique_In _ String.eqb_eq _ _)). apply in_map_iff.
    exists (v, attrition_flag r). split; [reflexivity|].
    apply observations_In. eauto.
Qed.

Lemma index_NoDup (l : list string) :
  NoDup (sort_values (unique String.eqb l)).
Proof.
  apply (Permutation_NoDup (Permutation_sym (sort_values_perm _))).
  apply unique_NoDup, String.eqb_eq.
Qed.

Lemma existsb_outcome_In (o : outcome) (l : list outcome) :
  existsb (outcome_eqb o) l = true <-> In o l.
Proof.
  rewrite existsb_exists. split.
  - intros [x [Hx E]]. apply outcome_eqb_eq in E. now subst.
  - intros H. exists o. split; [exact H|apply outcome_eqb_refl].
Qed.

Lemma sorted_outcomes_In (o : outcome) (l : list outcome) :
  In o (sorted_outcomes l) <-> In o l.
Proof.
  unfold sorted_outcomes. rewrite filter_In, existsb_outcome_In.
  split; [tauto|]. intros H. split; [|exact H].
  destruct o; simpl; auto.
Qed.

Lemma sorted_outcomes_NoDup (l : list outcome) : NoDup (sorted_outcomes l).
Proof.
  unfold sorted_outcomes. apply NoDup_filter.
  repeat constructor; simpl; intuition discriminate.
Qed.

Lemma columns_In (d : dimension) (df : list customer) (o : outcome) :
  In o (sorted_outcomes (map snd (observations d df))) <-> observed d df o.
Proof.
  rewrite sorted_outcomes_In, in_map_iff. unfold observed. split.
  - intros [[v o'] [E H]]. simpl in E. subst o'.
    apply observations_In in H. destruct H as [r [Hr [E1 E2]]].
    exists r. repeat split; [exact Hr|congruence|exact E2].
  - intros [r [Hr [E1 E2]]]. destruct (column d r) as [v|] eqn:E; [|tauto].
    exists (v, o). split; [reflexivity|]. apply observations_In. eauto.
Qed.

(** ** Cell counts *)

Lemma cell_count_count_in (d : dimension) (df : list customer) (v : string)
  (o : outcome) :
  cell_count (observations d df) v o = count_in d df v o.
Proof.
  unfold cell_count, count_in. f_equal.
  induction df as [|r df IH]; simpl; [reflexivity|].
  rewrite filter_app, length_app, IH.
  destruct (column d r) as [s|]; simpl; [|reflexivity].
  rewrite orb_false_r.
  destruct (String.eqb s v && outcome_eqb (attrition_flag r) o); reflexivity.
Qed.

Lemma cell_count_absent (obs : list (string * outcome)) (v : string)
  (o : outcome) :
  existsb (outcome_eqb o) (map snd obs) = false -> cell_count obs v o = 0.
Proof.
  unfold cell_count. intros H.
  induction obs as [|[s o'] obs IH]; simpl in *; [reflexivity|].
  apply orb_false_iff in H. destruct H as [H1 H2].
  destruct o, o'; simpl in *; try discriminate;
    rewrite andb_false_r; auto.
Qed.

Lemma cell_count_split (d : dimension) (df : list customer) (v : string) :
  cell_count (observations d df) v Attrited
  + cell_count (observations d df) v Existing = total_in d df v.
Proof.
  rewrite !cell_count_count_in. unfold count_in, total_in.
  rewrite <- Nat2Z.inj_add. f_equal.
  induction df as [|r df IH]; simpl; [reflexivity|].
  destruct (isin (column d r) [v]); simpl; [|exact IH].
  destruct (attrition_flag r); simpl; lia.
Qed.

Lemma row_total (d : dimension) (df : list customer) (v : string) :
  sumZ (map (cell_count (observations d df) v)
            (sorted_outcomes (map snd (observations d df))))
  = total_in d df v.
Proof.
  rewrite <- cell_count_split. unfold sorted_outcomes. simpl.
  destruct (existsb (outcome_eqb Attrited) _) eqn:EA;
    destruct (existsb (outcome_eqb Existing) _) eqn:EE; simpl;
    rewrite ?(cell_count_absent _ v _ EA), ?(cell_count_absent _ v _ EE);
    lia.
Qed.

Lemma count_in_le_total (d : dimension) (df : list customer) (v : string)
  (o : outcome) : 0 <= count_in d df v o <= total_in d df v.
Proof.
  rewrite <- cell_count_split, !cell_count_count_in.
  unfold count_in. destruct o; lia.
Qed.

Lemma total_in_pos (d : dimension) (df : list customer) (v : string) :
  0 < total_in d df v <-> present d df v.
Proof.
  unfold total_in, present. split.
  - intros H.
    destruct (filter (fun r => isin (column d r) [v]) df) as [|r l] eqn:E;
      [simpl in H; lia|].
    assert (Hr : In r (filter (fun r => isin (column d r) [v]) df))
      by (rewrite E; now left).
    apply filter_In in Hr. destruct Hr as [Hr Hv].
    apply isin_single in Hv. eauto.
  - intros [r [Hr E]].
    assert (Hf : In r (filter (fun r => isin (column d r) [v]) df)).
    { apply filter_In. split; [exact Hr|]. now apply isin_single. }
    destruct (filter _ df); [destruct Hf|simpl; lia].
Qed.


(** ** The count table *)



(** ** The rate table *)

Lemma churn_rate_df_In (df : list customer) (d : dimension) (row : rate_row) :
  In row (churn_rate_df df d) <->
  exists v o, present d df v /\ observed d df o /\
              row = rate_entry v o (count_in d df v o) (total_in d df v).
Proof.
  rewrite churn_rate_df_cells. cbv zeta. rewrite in_flat_map. split.
  - intros [o [Ho H]]. apply in_map_iff in H. destruct H as [v [<- Hv]].
    exists v, o. rewrite row_total, cell_count_count_in.
    apply index_In in Hv. apply columns_In in Ho. auto.
  - intros [v [o [Hv [Ho ->]]]]. exists o. split; [now apply columns_In|].
    apply in_map_iff. exists v. rewrite row_total, cell_count_count_in.
    split; [reflexivity|now apply index_In].
Qed.

Lemma NoDup_product {A B : Type} (l1 : list A) (l2 : list B) :
  NoDup l1 -> NoDup l2 ->
  NoDup (flat_map (fun b => map (fun a => (a, b)) l1) l2).
Proof.
  intros H1 H2. induction H2 as [|b l2 Hb H2 IH]; simpl; [constructor|].
  apply NoDup_app.
  - apply Finite.Injective_map_NoDup; [|exact H1].
    intros x y E. now inversion E.
  - exact IH.
  - intros [a b'] Ha Hb'. apply in_map_iff in Ha.
    destruct Ha as [a' [E _]]. inversion E; subst.
    apply in_flat_map in Hb'. destruct Hb' as [b'' [Hin Hb']].
    apply in_map_iff in Hb'. destruct Hb' as [a'' [E' _]].
    inversion E'; subst. contradiction.
Qed.

Lemma churn_rate_df_keys (df : list customer) (d : dimension) :
  NoDup (map (fun r => (category r, flag r)) (churn_rate_df df d)).
Proof.
  rewrite churn_rate_df_cells. cbv zeta. rewrite map_flat_map.
  erewrite flat_map_ext; [|intros o; rewrite map_map; simpl; reflexivity].
  apply NoDup_product; [apply index_NoDup|apply sorted_outcomes_NoDup].
Qed.

(** ** Rounded rates *)

Lemma rate_of_scaled (c t : Z) :
  rate_of c t = fl (inject_Z (rint (scaled_rate c t)) / 10)%Q.
Proof. unfold rate_of, round1, scaled_rate. reflexivity. Qed.

Lemma rint_scaled_rate (c t : Z) :
  0 <= c <= t -> 0 < t ->
  0 <= rint (scaled_rate c t) <= 1000 /\
  (inject_Z (rint (scaled_rate c t)) - (1 # 2) - tiny
   <= inject_Z c / inject_Z t * 100 * 10 /\
   inject_Z c / inject_Z t * 100 * 10
   <= inject_Z (rint (scaled_rate c t)) + (1 # 2) + tiny)%Q.
Proof.
  intros Hc Ht. destruct (scaled_rate_near c t Hc Ht) as [L U].
  destruct (rint_near (scaled_rate c t)) as [Lo Hi].
  assert (C0 : (0 <= inject_Z c)%Q)
    by (change 0%Q with (inject_Z 0); rewrite <- Zle_Qle; lia).
  assert (T0 : (0 < inject_Z t)%Q)
    by (change 0%Q with (inject_Z 0); rewrite <- Zlt_Qlt; lia).
  assert (CT : (inject_Z c <= inject_Z t)%Q) by (rewrite <- Zle_Qle; lia).
  assert (R0 : (0 <= inject_Z c / inject_Z t)%Q)
    by (apply Qle_shift_div_l; lra).
  assert (R1 : (inject_Z c / inject_Z t <= 1)%Q)
    by (apply Qle_shift_div_r; lra).
  unfold tiny in *. split; [|split; lra]. split.
  - assert (K : (inject_Z (-1) < inject_Z (rint (scaled_rate c t)))%Q)
      by (change (inject_Z (-1)) with (-1)%Q; lra).
    rewrite <- Zlt_Qlt in K. lia.
  - assert (K : (inject_Z (rint (scaled_rate c t)) < inject_Z 1001)%Q)
      by (change (inject_Z 1001) with 1001%Q; lra).
    rewrite <- Zlt_Qlt in K. lia.
Qed.

Lemma rint_scaled_complement (c t : Z) :
  0 <= c <= t -> 0 < t ->
  999 <= rint (scaled_rate c t) + rint (scaled_rate (t - c) t) <= 1001.
Proof.
  intros Hc Ht.
  destruct (rint_scaled_rate c t Hc Ht) as [_ [L1 U1]].
  destruct (rint_scaled_rate (t - c) t ltac:(lia) Ht) as [_ [L2 U2]].
  assert (T0 : (0 < inject_Z t)%Q)
    by (change 0%Q with (inject_Z 0); rewrite <- Zlt_Qlt; lia).
  assert (E : (inject_Z (t - c) / inject_Z t * 100 * 10
               == 1000 - inject_Z c / inject_Z t * 100 * 10)%Q).
  { unfold Z.sub. rewrite inject_Z_plus, inject_Z_opp. field. lra. }
  rewrite E in L2, U2. unfold tiny in *.
  set (m1 := rint (scaled_rate c t)) in *.
  set (m2 := rint (scaled_rate (t - c) t)) in *.
  assert (K1 : (inject_Z 998 < inject_Z (m1 + m2))%Q)
    by (rewrite inject_Z_plus; change (inject_Z 998) with 998%Q; lra).
  assert (K2 : (inject_Z (m1 + m2) < inject_Z 1002)%Q)
    by (rewrite inject_Z_plus; change (inject_Z 1002) with 1002%Q; lra).
  rewrite <- Zlt_Qlt in K1, K2. lia.
Qed.

Lemma rint_scaled_all (t : Z) : 0 < t -> rint (scaled_rate t t) = 1000.
Proof.
  intros Ht. destruct (rint_scaled_rate t t ltac:(lia) Ht) as [_ [L U]].
  assert (T0 : (0 < inject_Z t)%Q)
    by (change 0%Q with (inject_Z 0); rewrite <- Zlt_Qlt; lia).
  assert (E : (inject_Z t / inject_Z t * 100 * 10 == 1000)%Q) by (field; lra).
  rewrite E in L, U. unfold tiny in *.
  set (m := rint (scaled_rate t t)) in *.
  assert (K1 : (inject_Z 999 < inject_Z m)%Q)
    by (change (inject_Z 999) with 999%Q; lra).
  assert (K2 : (inject_Z m < inject_Z 1001)%Q)
    by (change (inject_Z 1001) with 1001%Q; lra).
  rewrite <- Zlt_Qlt in K1, K2. lia.
Qed.


(** The double stored for a number of tenths, and the tenths read back. *)
Lemma stored_tenth (m : Z) :
  0 <= m <= 1000 ->
  (inject_Z m / 10 - (1 # 4000000000000) <= fl (inject_Z m / 10) /\
   fl (inject_Z m / 10) <= inject_Z m / 10 + (1 # 4000000000000))%Q /\
  rint (fl (inject_Z m / 10) * 10) = m.
Proof.
  intros Hm.
  assert (M0 : (0 <= inject_Z m)%Q)
    by (change 0%Q with (inject_Z 0); rewrite <- Zle_Qle; lia).
  assert (M1 : (inject_Z m <= 1000)%Q)
    by (change 1000%Q with (inject_Z 1000); rewrite <- Zle_Qle; lia).
  assert (Q0 : (0 <= inject_Z m / 10)%Q) by (apply Qle_shift_div_l; lra).
  assert (Q1 : (inject_Z m / 10 <= 100)%Q) by (apply Qle_shift_div_r; lra).
  destruct (fl_error _ Q0) as [L U]. unfold eps in *.
  set (q := (inject_Z m / 10)%Q) in *.
  assert (B : (q - (1 # 4000000000000) <= fl q /\
               fl q <= q + (1 # 4000000000000))%Q) by (split; nra).
  split; [exact B|].
  assert (Eq : (q * 10 == inject_Z m)%Q) by (unfold q; field).
  apply rint_unique; try (intros [T|T]); lra.
Qed.

Lemma tenths_rate_entry (v : string) (o : outcome) (c t : Z) :
  0 <= c <= t -> 0 < t ->
  tenths (rate_entry v o c t) = rint (scaled_rate c t).
Proof.
  intros Hc Ht. unfold tenths, rate_entry, percentage.
  rewrite rate_of_scaled.
  apply stored_tenth. now apply rint_scaled_rate.
Qed.

(** ** Sums of a category value's percentages *)

Lemma sum_percentages_app (v : string) (l1 l2 : list rate_row) :
  (sum_percentages v (l1 ++ l2)
   == sum_percentages v l1 + sum_percentages v l2)%Q.
Proof.
  unfold sum_percentages. induction l1 as [|r l1 IH]; simpl; [ring|].
  destruct (String.eqb (category r) v); simpl; [rewrite IH; ring|exact IH].
Qed.

Lemma sum_percentages_column (v : string) (o : outcome) (c t : string -> Z)
  (idx : list string) :
  NoDup idx -> In v idx ->
  (sum_percentages v (map (fun s => rate_entry s o (c s) (t s)) idx)
   == rate_of (c v) (t v))%Q.
Proof.
  unfold sum_percentages. intros N. induction N as [|s idx Hs N IH]; simpl;
    [tauto|].
  intros [->|Hv].
  - rewrite String.eqb_refl. simpl.
    assert (Z0 : filter (fun r => String.eqb (category r) v)
                   (map (fun s => rate_entry s o (c s) (t s)) idx) = []).
    { clear IH N. induction idx as [|s idx IH]; simpl; [reflexivity|].
      destruct (String.eqb_spec s v) as [->|_].
      - exfalso. apply Hs. now left.
      - apply IH. intros H. apply Hs. now right. }
    rewrite Z0. cbn [map fold_right percentage rate_entry].
    apply Qplus_0_r.
  - destruct (String.eqb_spec s v) as [->|_]; [contradiction|].
    now apply IH.
Qed.

Lemma sum_percentages_rows (v : string) (c : string -> outcome -> Z)
  (t : string -> Z) (idx : list string) (cols : list outcome) :
  NoDup idx -> In v idx ->
  (sum_percentages v
     (flat_map (fun o => map (fun s => rate_entry s o (c s o) (t s)) idx) cols)
   == fold_right Qplus 0 (map (fun o => rate_of (c v o) (t v)) cols))%Q.
Proof.
  intros N Hv. induction cols as [|o cols IH]; simpl; [reflexivity|].
  rewrite sum_percentages_app, IH.
  now rewrite (sum_percentages_column v o (fun s => c s o) t idx N Hv).
Qed.

Lemma churn_rate_df_table (df : list customer) (d : dimension) :
  churn_rate_df df d =
  flat_map
    (fun o => map (fun v => rate_entry v o (count_in d df v o)
                                       (total_in d df v))
                  (sort_values
                     (unique String.eqb (map fst (observations d df)))))
    (sorted_outcomes (map snd (observations d df))).
Proof.
  rewrite churn_rate_df_cells. cbv zeta.
  apply flat_map_ext. intros o. apply map_ext. intros v.
  now rewrite row_total, cell_count_count_in.
Qed.

Lemma sum_tenths_app (v : string) (l1 l2 : list rate_row) :
  sum_tenths v (l1 ++ l2) = sum_tenths v l1 + sum_tenths v l2.
Proof.
  unfold sum_tenths, sumZ. induction l1 as [|r l1 IH]; simpl; [reflexivity|].
  destruct (String.eqb (category r) v); simpl; lia.
Qed.

Lemma sum_tenths_column (v : string) (o : outcome) (c t : string -> Z)
  (idx : list string) :
  NoDup idx -> In v idx ->
  sum_tenths v (map (fun s => rate_entry s o (c s) (t s)) idx)
  = tenths (rate_entry v o (c v) (t v)).
Proof.
  unfold sum_tenths, sumZ. intros N. induction N as [|s idx Hs N IH];
    [simpl; tauto|].
  intros [->|Hv].
  - cbn [map filter category rate_entry]. rewrite String.eqb_refl.
    assert (Z0 : filter (fun r => String.eqb (category r) v)
                   (map (fun s => rate_entry s o (c s) (t s)) idx) = []).
    { clear IH N. induction idx as [|s idx IH]; [reflexivity|].
      cbn [map filter category rate_entry].
      destruct (String.eqb_spec s v) as [->|_].
      - exfalso. apply Hs. now left.
      - apply IH. intros H. apply Hs. now right. }
    rewrite Z0. cbn [map fold_right]. unfold tenths, rate_entry, percentage.
    lia.
  - cbn [map filter category rate_entry].
    destruct (String.eqb_spec s v) as [->|_]; [contradiction|].
    now apply IH.
Qed.

Lemma sum_tenths_rows (v : string) (c : string -> outcome -> Z)
  (t : string -> Z) (idx : list string) (cols : list outcome) :
  NoDup idx -> In v idx ->
  sum_tenths v
    (flat_map (fun o => map (fun s => rate_entry s o (c s o) (t s)) idx) cols)
  = sumZ (map (fun o => tenths (rate_entry v o (c v o) (t v))) cols).
Proof.
  intros N Hv. induction cols as [|o cols IH]; [reflexivity|].
  cbn [flat_map]. rewrite sum_tenths_app, IH.
  rewrite (sum_tenths_column v o (fun s => c s o) t idx N Hv).
  unfold sumZ. cbn [map fold_right]. reflexivity.
Qed.

Lemma value_rows_sums (df : list customer) (d : dimension) (v : string) :
  present d df v ->
  999 <= sum_tenths v (churn_rate_df df d) <= 1001 /\
  ((999 # 10) - tiny <= sum_percentages v (churn_rate_df df d) /\
   sum_percentages v (churn_rate_df df d) <= (1001 # 10) + tiny)%Q.
Proof.
  intros Hv. pose proof (proj2 (total_in_pos d df v) Hv) as Ht.
  pose proof (proj2 (index_In d df v) Hv) as Hi.
  pose proof (index_NoDup (map fst (observations d df))) as Hn.
  pose proof (cell_count_split d df v) as Hs.
  pose proof (count_in_le_total d df v Attrited) as BA.
  pose proof (count_in_le_total d df v Existing) as BE.
  rewrite churn_rate_df_table.
  rewrite (sum_percentages_rows v (count_in d df) (total_in d df) _ _ Hn Hi).
  rewrite (sum_tenths_rows v (count_in d df) (total_in d df) _ _ Hn Hi).
  destruct Hv as [r [Hr Er]].
  assert (Ho : In (attrition_flag r) (map snd (observations d df))).
  { apply in_map_iff. exists (v, attrition_flag r). split; [reflexivity|].
    apply observations_In. eauto. }
  apply existsb_outcome_In in Ho.
  unfold sorted_outcomes. simpl filter.
  set (t := total_in d df v) in *.
  set (a := count_in d df v Attrited) in *.
  set (e := count_in d df v Existing) in *.
  rewrite !cell_count_count_in in Hs. fold a e in Hs.
  destruct (existsb (outcome_eqb Attrited) _) eqn:EA;
    destruct (existsb (outcome_eqb Existing) _) eqn:EE;
    cbn [map fold_right sumZ]; fold a e.
  - rewrite !tenths_rate_entry by lia. rewrite !rate_of_scaled.
    pose proof (rint_scaled_complement a t BA Ht) as S.
    replace (t - a) with e in S by lia.
    destruct (rint_scaled_rate a t BA Ht) as [Ma _].
    destruct (rint_scaled_rate e t BE Ht) as [Me _].
    destruct (stored_tenth _ Ma) as [[La Ua] _].
    destruct (stored_tenth _ Me) as [[Le Ue] _].
    set (ma := rint (scaled_rate a t)) in *.
    set (me := rint (scaled_rate e t)) in *.
    split; [lia|].
    assert (S1 : (inject_Z 999 <= inject_Z (ma + me))%Q)
      by (rewrite <- Zle_Qle; lia).
    assert (S2 : (inject_Z (ma + me) <= inject_Z 1001)%Q)
      by (rewrite <- Zle_Qle; lia).
    rewrite inject_Z_plus in S1, S2.
    change (inject_Z 999) with 999%Q in S1.
    change (inject_Z 1001) with 1001%Q in S2.
    unfold Qdiv in *. change (/ 10)%Q with (1 # 10)%Q in *.
    unfold tiny. split; lra.
  - unfold e in Hs. fold t in Hs.
    assert (Ea : a = t).
    { pose proof (cell_count_absent (observations d df) v _ EE) as Z0.
      rewrite cell_count_count_in in Z0. fold e in Z0. unfold e in *. lia. }
    rewrite Ea. rewrite tenths_rate_entry by lia. rewrite rate_of_scaled.
    rewrite (rint_scaled_all t Ht).
    destruct (stored_tenth 1000 ltac:(lia)) as [[L U] _].
    split; [lia|]. unfold tiny.
    change (inject_Z 1000) with 1000%Q in *.
    unfold Qdiv in *. change (/ 10)%Q with (1 # 10)%Q in *. split; lra.
  - assert (Ee : e = t).
    { pose proof (cell_count_absent (observations d df) v _ EA) as Z0.
      rewrite cell_count_count_in in Z0. fold a in Z0. lia. }
    rewrite Ee. rewrite tenths_rate_entry by lia. rewrite rate_of_scaled.
    rewrite (rint_scaled_all t Ht).
    destruct (stored_tenth 1000 ltac:(lia)) as [[L U] _].
    split; [lia|]. unfold tiny.
    change (inject_Z 1000) with 1000%Q in *.
    unfold Qdiv in *. change (/ 10)%Q with (1 # 10)%Q in *. split; lra.
  - destruct (attrition_flag r); congruence.
Qed.

(** ** Sparsity of the tables *)



(** C4. [churn_rate_df] divides by no zero: every row of the cross
    tabulation has a positive sum, and a category value whose total count in
    the given record set is zero gets no row, for any record set. *)
Theorem zero_total_is_an_omitted_row
  (df : list customer) (d : dimension) (v : string) :
  total_in d df v = 0 ->
  (forall row, In row (churn_rate_df df d) -> category row <> v) /\
  (forall cells, In cells (values (crosstab d df)) -> 0 < sumZ cells).
Proof.
  intros H0. split.
  - intros row Hrow E. apply churn_rate_df_In in Hrow.
    destruct Hrow as [v' [o [Hv [_ ->]]]]. simpl in E. subst v'.
    apply total_in_pos in Hv. lia.
  - intros cells Hc. unfold crosstab in Hc. simpl in Hc.
    apply in_map_iff in Hc. destruct Hc as [s [<- Hs]].
    rewrite row_total. apply total_in_pos. now apply index_In.
Qed.

Lemma zero_total_is_an_omitted_row_witness :
  let df := [sample 1 15 Existing "M"; sample 2 45 Attrited "F"] in
  (forall row, In row (churn_rate_df df AgeGroup) -> category row <> "20-39") /\
  (forall cells, In cells (values (crosstab AgeGroup df)) -> 0 < sumZ cells).
Proof.
  apply (zero_total_is_an_omitted_row
           [sample 1 15 Existing "M"; sample 2 45 Attrited "F"]
           AgeGroup "20-39").
  reflexivity.
Defined.

(** ** Shape and values of the rate table *)

Lemma exact_percentage_scaled (d : dimension) (df : list customer)
  (v : string) (o : outcome) :
  (exact_percentage d df v o * 10
   == inject_Z (count_in d df v o) / inject_Z (total_in d df v) * 100 * 10)%Q.
Proof. unfold exact_percentage, Qdiv. ring. Qed.

(** C5, as the code has it. The rate table has exactly one row for every
    pair of a present category value and an outcome observed anywhere in the
    record set (not only for that value); each row holds the float64 nearest
    to a one-decimal value [m/10] that is a nearest tenth of
    100 * count(value, outcome) / total_count(value), up to the float64 error
    of the computation (below [10^-12] tenths). *)
Theorem rate_table_is_dense (df : list customer) (d : dimension) :
  NoDup (map (fun r => (category r, flag r)) (churn_rate_df df d)) /\
  (forall v o,
     (exists r, In r (churn_rate_df df d) /\ category r = v /\ flag r = o)
     <-> present d df v /\ observed d df o) /\
  (forall r, In r (churn_rate_df df d) ->
     exists m, percentage r = fl (inject_Z m / 10)%Q /\ 0 <= m <= 1000 /\
       (inject_Z m - (1 # 2) - tiny
        <= exact_percentage d df (category r) (flag r) * 10 /\
        exact_percentage d df (category r) (flag r) * 10
        <= inject_Z m + (1 # 2) + tiny)%Q).
Proof.
  split; [apply churn_rate_df_keys|]. split.
  - intros v o. split.
    + intros [r [Hr [Ev Eo]]]. apply churn_rate_df_In in Hr.
      destruct Hr as [v' [o' [Hv [Ho ->]]]]. simpl in *. now subst.
    + intros [Hv Ho].
      exists (rate_entry v o (count_in d df v o) (total_in d df v)).
      split; [|split; reflexivity].
      apply churn_rate_df_In. eauto.
  - intros r Hr. apply churn_rate_df_In in Hr.
    destruct Hr as [v [o [Hv [_ ->]]]].
    apply total_in_pos in Hv.
    pose proof (count_in_le_total d df v o) as B.
    destruct (rint_scaled_rate _ _ B Hv) as [M [L U]].
    exists (rint (scaled_rate (count_in d df v o) (total_in d df v))).
    unfold rate_entry, percentage, category, flag.
    rewrite rate_of_scaled, exact_percentage_scaled. auto.
Qed.

(** C5, as stated, fails: in the worked scenario no customer of the group
    "40-49" is attrited, yet the rate table holds the row
    ("40-49", Attrited) at 0.0 next to ("40-49", Existing) at 100.0. *)
Lemma single_outcome_value_has_two_rows :
  count_in AgeGroup scenario "40-49" Attrited = 0 /\
  map (fun r => (category r, flag r, percentage_label r))
      (churn_rate_df scenario AgeGroup)
  = [("20-39", Attrited, "50.0%"); ("40-49", Attrited, "0.0%");
     ("20-39", Existing, "50.0%"); ("40-49", Existing, "100.0%")] /\
  map tenths (churn_rate_df scenario AgeGroup) = [500; 0; 500; 1000].
Proof. vm_compute. auto. Qed.

(** C6, as the code has it. For every category value present in a rate
    table, the one-decimal values of its rows add up to 99.9, 100.0 or 100.1
    (their tenths to 999, 1000 or 1001), and the stored float64 values add
    up to a number within [10^-12] of the interval from 99.9 to 100.1. *)
Theorem rate_tenths_sum_within_one
  (df : list customer) (d : dimension) (v : string) :
  (exists r, In r (churn_rate_df df d) /\ category r = v) ->
  999 <= sum_tenths v (churn_rate_df df d) <= 1001 /\
  ((999 # 10) - tiny <= sum_percentages v (churn_rate_df df d) /\
   sum_percentages v (churn_rate_df df d) <= (1001 # 10) + tiny)%Q.
Proof.
  intros [r [Hr E]]. apply churn_rate_df_In in Hr.
  destruct Hr as [v' [o [Hv [_ ->]]]]. simpl in E. subst v'.
  now apply value_rows_sums.
Qed.

Lemma rate_tenths_sum_within_one_witness :
  999 <= sum_tenths "F" (churn_rate_df eighty Gender) <= 1001 /\
  ((999 # 10) - tiny <= sum_percentages "F" (churn_rate_df eighty Gender) /\
   sum_percentages "F" (churn_rate_df eighty Gender) <= (1001 # 10) + tiny)%Q.
Proof.
  apply (rate_tenths_sum_within_one eighty Gender "F").
  exists (rate_entry "F" Attrited 49 80). split; [|reflexivity].
  vm_compute. left. reflexivity.
Defined.

(** C6, as stated, fails: of 2000 customers of one gender, 3 attrited, the
    rows show 0.2% and 99.9%; the two stored float64 values add up to more
    than 100.1, in exact addition and in float64 addition compared with the
    float64 nearest to 100.1. *)
Lemma three_of_two_thousand_exceed :
  map percentage_label (churn_rate_df two_thousand Gender)
  = ["0.2%"; "99.9%"] /\
  sum_tenths "F" (churn_rate_df two_thousand Gender) = 1001 /\
  (1001 # 10 < sum_percentages "F" (churn_rate_df two_thousand Gender))%Q /\
  (fl (1001 # 10)
   < fl (sum_percentages "F" (churn_rate_df two_thousand Gender)))%Q.
Proof.
  split; [vm_compute; reflexivity|]. split; [vm_compute; reflexivity|].
  split; apply Qlt_alt; vm_compute; reflexivity.
Qed.

(** C10, as the code has it. [round(1)] rounds the float64 product
    percentage * 10 to the nearest integer, ties to even: when that computed
    product is exactly halfway between the integers [k] and [k+1], the row
    holds the float64 nearest to [m/10] for the even one [m] of the two, an
    even final digit. *)
Theorem rate_rounds_computed_tie_to_even
  (df : list customer) (d : dimension) (r : rate_row) (k : Z) :
  In r (churn_rate_df df d) ->
  (scaled_rate (count_in d df (category r) (flag r))
               (total_in d df (category r))
   == inject_Z k + (1 # 2))%Q ->
  exists m, percentage r = fl (inject_Z m / 10)%Q /\ tenths r = m /\
            Z.even m = true /\ (m = k \/ m = k + 1).
Proof.
  intros Hr Hk. apply churn_rate_df_In in Hr.
  destruct Hr as [v [o [Hv [_ ->]]]].
  apply total_in_pos in Hv.
  pose proof (count_in_le_total d df v o) as B.
  unfold rate_entry, category, flag in Hk.
  rewrite (tenths_rate_entry v o _ _ B Hv).
  unfold rate_entry, percentage. rewrite rate_of_scaled.
  set (q := scaled_rate (count_in d df v o) (total_in d df v)) in *.
  exists (rint q). split; [reflexivity|]. split; [reflexivity|].
  destruct (rint_near q) as [Lo Hi].
  assert (Bk : k <= rint q <= k + 1).
  { split.
    - rewrite Zle_Qle. lra.
    - rewrite Zle_Qle, inject_Z_plus. change (inject_Z 1) with 1%Q. lra. }
  assert (C : rint q = k \/ rint q = k + 1) by lia.
  split; [|exact C].
  apply rint_tie_even.
  destruct C as [C|C]; rewrite C; [left|right];
    rewrite ?inject_Z_plus; change (inject_Z 1) with 1%Q; lra.
Qed.

Lemma rate_rounds_computed_tie_to_even_witness :
  exists m, percentage (rate_entry "F" Attrited 1 16)
            = fl (inject_Z m / 10)%Q /\
            tenths (rate_entry "F" Attrited 1 16) = m /\
            Z.even m = true /\ (m = 62 \/ m = 62 + 1).
Proof.
  apply (rate_rounds_computed_tie_to_even sixteen Gender
           (rate_entry "F" Attrited 1 16) 62).
  - vm_compute. left. reflexivity.
  - apply Qeq_bool_eq. vm_compute. reflexivity.
Defined.

(** C10, as stated, fails: 49 attrited of 80 is exactly 61.25%, halfway
    between 61.2 and 61.3, and the row shows 61.3%, an odd final digit (the
    float64 product 49/80*100 is a little above 61.25). *)
Lemma exact_tie_shows_odd_digit :
  (exact_percentage Gender eighty "F" Attrited * 10
   == inject_Z 612 + (1 # 2))%Q /\
  (inject_Z 612 + (1 # 2) < scaled_rate 49 80)%Q /\
  map (fun r => (category r, flag r, tenths r, percentage_label r))
      (churn_rate_df eighty Gender)
  = [("F", Attrited, 613, "61.3%"); ("F", Existing, 388, "38.8%")] /\
  Z.even 613 = false.
Proof.
  split; [apply Qeq_bool_eq; vm_compute; reflexivity|].
  split; [apply Qlt_alt; vm_compute; reflexivity|].
  split; [vm_compute; reflexivity|reflexivity].
Qed.

(** ** Re-running the page *)

Lemma filter_idem {A : Type} (f : A -> bool) (l : list A) :
  filter f (filter f l) = filter f l.
Proof.
  induction l as [|x l IH]; simpl; [reflexivity|].
  destruct (f x) eqn:E; simpl; rewrite ?E, IH; reflexivity.
Qed.

Lemma apply_filters_idem (df : list customer) (F : FilterSet) :
  apply_filters (apply_filters df F) F = apply_filters df F.
Proof. rewrite !apply_filters_filter. apply filter_idem. Qed.

(** C9. Running the page twice on the same data set with the same FilterSet
    yields the same filtered output and the same count and rate tables, and
    leaves the session as the first run left it; filtering the filtered
    output again with the same FilterSet changes nothing. *)
Theorem rerun_is_stable (csv : list customer) (F : FilterSet) (s : session) :
  let run1 := eda_page csv F s in
  let run2 := eda_page csv F (snd run1) in
  fst run2 = fst run1 /\ snd run2 = snd run1 /\
  apply_filters (filtered_df (fst run1)) F = filtered_df (fst run1) /\
  forall d,
    count_by d (apply_filters (filtered_df (fst run1)) F) =
    count_by d (filtered_df (fst run1)) /\
    churn_rate_df (apply_filters (filtered_df (fst run1)) F) d =
    churn_rate_df (filtered_df (fst run1)) d.
Proof.
  cbv zeta. unfold eda_page, load_data.
  destruct (cached_data s) as [df0|] eqn:E; simpl; rewrite ?E; simpl;
    rewrite apply_filters_idem; repeat split.
Qed.

(** ** Worked scenarios *)

Example scenario_counts :
  count_by AgeGroup (apply_filters scenario (default_filters scenario))
  = [mkCountRow "20-39" Existing 1; mkCountRow "40-49" Existing 1;
     mkCountRow "20-39" Attrited 1].
Proof. reflexivity. Qed.

Example scenario_one_bucket :
  let F := mkFilterSet ["40-49"] ["Graduate"] ["F"; "M"] ["Unknown"] in
  apply_filters scenario F = [sample 3 45 Existing "M"] /\
  count_by AgeGroup (apply_filters scenario F)
  = [mkCountRow "40-49" Existing 1] /\
  map (fun r => (category r, flag r, percentage_label r))
      (churn_rate_df (apply_filters scenario F) AgeGroup)
  = [("40-49", Existing, "100.0%")].
Proof. vm_compute. auto. Qed.

Example sixteen_rates :
  map (fun r => (category r, flag r, percentage_label r))
      (churn_rate_df sixteen Gender)
  = [("F", Attrited, "6.2%"); ("F", Existing, "93.8%")].
Proof. vm_compute. reflexivity. Qed.

Example age_edges :
  map assign_age_group [19; 20; 39; 40; 59; 60; 78; 79; 80]
  = [None; Some "20-39"; Some "20-39"; Some "40-49"; Some "50-59";
     Some "60-79"; Some "60-79"; None; None].
Proof. reflexivity. Qed.

(** * Further properties of the page *)

(** ** Sums of group sizes *)

Lemma sumZ_app (l1 l2 : list Z) : sumZ (l1 ++ l2) = sumZ l1 + sumZ l2.
Proof.
  unfold sumZ. induction l1 as [|x l1 IH]; simpl; [reflexivity|].
  rewrite IH. lia.
Qed.

Lemma sumZ_map_add {K : Type} (f g : K -> Z) (u : list K) :
  sumZ (map (fun k => f k + g k) u) = sumZ (map f u) + sumZ (map g u).
Proof.
  unfold sumZ. induction u as [|k u IH]; simpl; [reflexivity|].
  rewrite IH. lia.
Qed.

Lemma sumZ_perm (l1 l2 : list Z) : Permutation l1 l2 -> sumZ l1 = sumZ l2.
Proof.
  unfold sumZ. induction 1; simpl; lia.
Qed.

Section GroupSizes.
Context {A K : Type} (eqb : K -> K -> bool) (key : A -> K).
Hypothesis eqb_eq : forall x y, eqb x y = true <-> x = y.

Lemma eqb_refl_true (x : K) : eqb x x = true.
Proof. now apply eqb_eq. Qed.

Lemma eqb_neq_false (x y : K) : x <> y -> eqb x y = false.
Proof.
  intros N. destruct (eqb x y) eqn:E; [|reflexivity].
  apply eqb_eq in E. contradiction.
Qed.

Lemma indicator_sum_out (x : K) (u : list K) :
  ~ In x u -> sumZ (map (fun k => if eqb k x then 1 else 0) u) = 0.
Proof.
  induction u as [|k u IH]; simpl; [reflexivity|].
  intros N. rewrite eqb_neq_false by (intros ->; apply N; now left).
  rewrite IH; [reflexivity|]. intros H. apply N. now right.
Qed.

Lemma indicator_sum_in (x : K) (u : list K) :
  NoDup u -> In x u -> sumZ (map (fun k => if eqb k x then 1 else 0) u) = 1.
Proof.
  induction 1 as [|k u Hk N IH]; simpl; [tauto|].
  intros [->|Hx].
  - rewrite eqb_refl_true, indicator_sum_out by exact Hk. reflexivity.
  - rewrite eqb_neq_false by (intros ->; contradiction).
    rewrite IH by exact Hx. reflexivity.
Qed.

Lemma sum_group_sizes (u : list K) (l : list A) :
  NoDup u -> (forall r, In r l -> In (key r) u) ->
  sumZ (map (fun k => Z.of_nat
                        (List.length (filter (fun r => eqb k (key r)) l))) u)
  = Z.of_nat (List.length l).
Proof.
  intros N. induction l as [|r l IH]; intros C.
  - simpl. induction u as [|k u IHu]; simpl; [reflexivity|].
    inversion N; subst. now rewrite IHu.
  - rewrite (map_ext _ (fun k =>
               (if eqb k (key r) then 1 else 0)
               + Z.of_nat (List.length (filter (fun r => eqb k (key r)) l)))).
    + rewrite sumZ_map_add, indicator_sum_in, IH.
      * simpl List.length. lia.
      * intros r' Hr'. apply C. now right.
      * exact N.
      * apply C. now left.
    + intros k. simpl filter. destruct (eqb k (key r)); simpl List.length; lia.
Qed.
End GroupSizes.

(** ** The filter with every option selected, and narrower selections *)

Lemma filter_ext_In {A : Type} (f g : A -> bool) (l : list A) :
  (forall x, In x l -> f x = g x) -> filter f l = filter g l.
Proof.
  induction l as [|x l IH]; simpl; intros H; [reflexivity|].
  rewrite (H x) by now left. rewrite IH; [reflexivity|].
  intros y Hy. apply H. now right.
Qed.

Lemma keep_default (df : list customer) (r : customer) :
  In r df -> keep (default_filters df) r = has_age_group r.
Proof.
  intros Hr. unfold keep, has_age_group, default_filters, column. simpl.
  assert (G : existsb (String.eqb (gender r))
                (unique String.eqb (map gender df)) = true).
  { apply existsb_eqb_In, (proj2 (unique_In _ String.eqb_eq _ _)).
    now apply in_map. }
  assert (I : existsb (String.eqb (income_category r))
                (unique String.eqb (map income_category df)) = true).
  { apply existsb_eqb_In, (proj2 (unique_In _ String.eqb_eq _ _)).
    now apply in_map. }
  assert (E : existsb (String.eqb (education_level r))
                (unique String.eqb (map education_level df)) = true).
  { apply existsb_eqb_In, (proj2 (unique_In _ String.eqb_eq _ _)).
    now apply in_map. }
  rewrite G, I, E, andb_true_r. simpl.
  destruct (age_group r) as [g|] eqn:Eg; simpl; [|reflexivity].
  apply existsb_eqb_In, (proj2 (unique_In _ String.eqb_eq _ _)), dropna_In.
  rewrite <- Eg. now apply in_map.
Qed.

Lemma isin_incl (v : option string) (l1 l2 : list string) :
  incl l1 l2 -> isin v l1 = true -> isin v l2 = true.
Proof.
  intros I H. apply isin_true in H. destruct H as [s [-> Hs]].
  apply isin_true. exists s. split; [reflexivity|]. now apply I.
Qed.

Lemma keep_narrower (F G : FilterSet) (r : customer) :
  narrower F G -> keep F r = true -> keep G r = true.
Proof.
  intros [Ha [He [Hg Hi]]]. unfold keep.
  rewrite !andb_true_iff. intros [[[H1 H2] H3] H4].
  repeat split; eapply isin_incl; eauto.
Qed.

Lemma filter_filter_narrow {A : Type} (f g : A -> bool) (l : list A) :
  (forall x, f x = true -> g x = true) ->
  filter f (filter g l) = filter f l.
Proof.
  intros H. induction l as [|x l IH]; simpl; [reflexivity|].
  destruct (g x) eqn:Eg; simpl.
  - now rewrite IH.
  - destruct (f x) eqn:Ef; [|exact IH].
    rewrite (H x Ef) in Eg. discriminate.
Qed.

Lemma filter_all {A : Type} (f : A -> bool) (l : list A) :
  filter f l = l <-> forall x, In x l -> f x = true.
Proof.
  split.
  - intros E x Hx. rewrite <- E in Hx. now apply filter_In in Hx.
  - intros H. induction l as [|x l IH]; simpl; [reflexivity|].
    rewrite (H x) by now left. f_equal. apply IH.
    intros y Hy. apply H. now right.
Qed.

Lemma has_age_group_range (r : customer) :
  has_age_group r = true <-> 20 <= customer_age r <= 78.
Proof.
  unfold has_age_group, age_group.
  pose proof (assign_age_group_undefined (customer_age r)) as U.
  destruct (assign_age_group (customer_age r)); split; intros H;
    try reflexivity; try discriminate.
  - destruct (Z_lt_dec (customer_age r) 20) as [L|L];
      [assert (X : @None string = None) by reflexivity;
       pose proof (proj2 U (or_introl L)); discriminate|].
    destruct (Z_lt_dec 78 (customer_age r)) as [G|G];
      [pose proof (proj2 U (or_intror G)); discriminate|]. lia.
  - assert (X : customer_age r < 20 \/ 78 < customer_age r)
      by (now apply U). lia.
Qed.

(** X1. With every option selected, the filter keeps exactly the rows whose
    age has a group, in order; it keeps the whole data set iff every age is
    between 20 and 78. *)
Theorem default_selection_keeps_grouped_ages (df : list customer) :
  apply_filters df (default_filters df) = filter has_age_group df /\
  (apply_filters df (default_filters df) = df <->
   forall r, In r df -> 20 <= customer_age r <= 78).
Proof.
  assert (E : apply_filters df (default_filters df) = filter has_age_group df).
  { rewrite apply_filters_filter. apply filter_ext_In.
    intros r Hr. now apply keep_default. }
  split; [exact E|]. rewrite E, filter_all.
  split; intros H r Hr; apply has_age_group_range; auto.
Qed.

(** X2. The options of the age-group filter are the distinct group labels
    occurring in the data set: no label twice, no label outside the four
    bucket labels, and no option for a row without a group. *)
Theorem age_options_are_observed_labels (df : list customer) :
  NoDup (selected_age (default_filters df)) /\
  incl (selected_age (default_filters df)) labels /\
  forall g, In g (selected_age (default_filters df)) <->
            exists r, In r df /\ age_group r = Some g.
Proof.
  assert (M : forall g, In g (selected_age (default_filters df)) <->
                        exists r, In r df /\ age_group r = Some g).
  { intros g. simpl.
    rewrite (unique_In _ String.eqb_eq), dropna_In, in_map_iff.
    split; intros [r H]; exists r; tauto. }
  split; [apply unique_NoDup, String.eqb_eq|]. split; [|exact M].
  intros g Hg. apply M in Hg. destruct Hg as [r [_ E]].
  apply assign_age_group_bucket in E. unfold labels. simpl. intuition.
Qed.

(** X3. Narrowing the selections never adds a row: when [F] selects no more
    than [G] in every dimension, the rows kept by [F] are a subsequence of
    the rows kept by [G], and are what [F] keeps of them. *)
Theorem narrower_selection_keeps_fewer
  (df : list customer) (F G : FilterSet) :
  narrower F G ->
  subseq (apply_filters df F) (apply_filters df G) /\
  apply_filters (apply_filters df G) F = apply_filters df F.
Proof.
  intros N.
  assert (E : apply_filters (apply_filters df G) F = apply_filters df F).
  { rewrite !apply_filters_filter. apply filter_filter_narrow.
    intros r. now apply keep_narrower. }
  split; [|exact E]. rewrite <- E, (apply_filters_filter (apply_filters df G)).
  apply subseq_filter.
Qed.

Lemma narrower_selection_keeps_fewer_witness :
  let F := mkFilterSet ["40-49"] ["Graduate"] ["M"] ["Unknown"] in
  subseq (apply_filters scenario F)
         (apply_filters scenario (default_filters scenario)) /\
  apply_filters (apply_filters scenario (default_filters scenario)) F
  = apply_filters scenario F.
Proof.
  apply (narrower_selection_keeps_fewer scenario
           (mkFilterSet ["40-49"] ["Graduate"] ["M"] ["Unknown"])
           (default_filters scenario)).
  repeat split; intros x Hx; vm_compute in Hx; vm_compute; tauto.
Defined.

(** ** The count table as a finite map *)

Lemma sumZ_flat_map {A : Type} (f : A -> list Z) (l : list A) :
  sumZ (flat_map f l) = sumZ (map (fun x => sumZ (f x)) l).
Proof.
  induction l as [|x l IH]; simpl; [reflexivity|].
  rewrite sumZ_app, IH. reflexivity.
Qed.

Lemma outcome_eqb_sym (a b : outcome) : outcome_eqb a b = outcome_eqb b a.
Proof. now destruct a, b. Qed.

Lemma trace_values_length (d : dimension) (df : list customer) (o : outcome) :
  List.length
    (dropna (map (column d)
                 (filter (fun r => outcome_eqb (attrition_flag r) o) df)))
  = List.length
      (filter (fun r => outcome_eqb o (attrition_flag r))
              (filter (has_value d) df)).
Proof.
  unfold dropna, has_value.
  induction df as [|r df IH]; simpl; [reflexivity|].
  destruct (column d r) as [s|] eqn:Ec; simpl;
    rewrite ?(outcome_eqb_sym o (attrition_flag r));
    destruct (outcome_eqb (attrition_flag r) o) eqn:Eo; simpl;
    rewrite ?Ec; simpl; rewrite IH; reflexivity.
Qed.

Lemma count_by_sum (d : dimension) (df : list customer) :
  sum_counts (count_by d df)
  = Z.of_nat (List.length (filter (has_value d) df)).
Proof.
  unfold sum_counts, count_by. rewrite map_flat_map, sumZ_flat_map.
  rewrite <- (sum_group_sizes outcome_eqb attrition_flag outcome_eqb_eq
                (unique outcome_eqb (map attrition_flag df))
                (filter (has_value d) df)).
  - f_equal. apply map_ext. intros o. rewrite map_map. simpl.
    rewrite <- trace_values_length.
    apply (sum_group_sizes String.eqb (fun s : string => s) String.eqb_eq).
    + apply unique_NoDup, String.eqb_eq.
    + intros s Hs. now apply (unique_In _ String.eqb_eq).
  - apply unique_NoDup, outcome_eqb_eq.
  - intros r Hr. apply filter_In in Hr.
    apply (unique_In _ outcome_eqb_eq). apply in_map. tauto.
Qed.



Lemma kept_has_age_group (F : FilterSet) (r : customer) :
  keep F r = true -> has_value AgeGroup r = true.
Proof.
  unfold keep, has_value. simpl.
  rewrite !andb_true_iff. intros [[[_ _] H] _].
  destruct (age_group r); [reflexivity|discriminate].
Qed.


(** X5. The bars of the age-group count chart add up to the number of rows
    that have an age group; on a filtered data set they add up to the
    number of filtered rows. *)
Theorem count_bars_add_up (df : list customer) (F : FilterSet) :
  sum_counts (count_by AgeGroup df)
  = Z.of_nat (List.length (filter (has_value AgeGroup) df)) /\
  sum_counts (count_by AgeGroup (apply_filters df F))
  = Z.of_nat (List.length (apply_filters df F)).
Proof.
  split; [apply count_by_sum|]. rewrite count_by_sum. do 2 f_equal.
  apply filter_all. intros r Hr. rewrite apply_filters_filter in Hr.
  apply filter_In in Hr. now apply (kept_has_age_group F).
Qed.

(** ** Churn distribution *)

Lemma insert_desc_perm (x : outcome * Z) (l : list (outcome * Z)) :
  Permutation (insert_desc x l) (x :: l).
Proof.
  induction l as [|y l IH]; simpl; [reflexivity|].
  destruct (snd y <=? snd x); [reflexivity|].
  rewrite IH. apply perm_swap.
Qed.

Lemma value_counts_perm (l : list outcome) :
  Permutation (value_counts l)
              (map (fun o => (o, count_outcome o l)) (unique outcome_eqb l)).
Proof.
  unfold value_counts.
  induction (map (fun o => (o, count_outcome o l)) (unique outcome_eqb l))
    as [|x m IH]; simpl; [reflexivity|].
  rewrite insert_desc_perm. now constructor.
Qed.

Lemma insert_desc_sorted (x : outcome * Z) (l : list (outcome * Z)) :
  descending l -> descending (insert_desc x l).
Proof.
  unfold descending. induction 1 as [|y l Hl IH Hy]; simpl.
  - repeat constructor.
  - destruct (Z.leb_spec (snd y) (snd x)) as [L|L].
    + constructor; [constructor; assumption|]. constructor. exact L.
    + constructor; [exact IH|].
      destruct l as [|z l]; simpl.
      * constructor. lia.
      * inversion Hy; subst.
        destruct (snd z <=? snd x); constructor; lia.
Qed.

Lemma value_counts_sorted (l : list outcome) : descending (value_counts l).
Proof.
  unfold value_counts.
  induction (map (fun o => (o, count_outcome o l)) (unique outcome_eqb l))
    as [|x m IH]; simpl; [constructor|].
  now apply insert_desc_sorted.
Qed.

Lemma count_outcome_pos (o : outcome) (l : list outcome) :
  0 < count_outcome o l <-> In o l.
Proof.
  unfold count_outcome. split.
  - intros H. destruct (filter (outcome_eqb o) l) as [|x m] eqn:E;
      [simpl in H; lia|].
    assert (Hx : In x (filter (outcome_eqb o) l)) by (rewrite E; now left).
    apply filter_In in Hx. destruct Hx as [Hx Ex].
    apply outcome_eqb_eq in Ex. now subst.
  - intros H.
    assert (Hf : In o (filter (outcome_eqb o) l))
      by (apply filter_In; split; [exact H|apply outcome_eqb_refl]).
    destruct (filter (outcome_eqb o) l); [destruct Hf|simpl; lia].
Qed.

(** X6. [churn_counts] lists every outcome occurring in the filtered rows
    once, with the number of its rows, the largest count first, and the
    counts add up to the number of filtered rows. *)
Theorem churn_counts_partition (fdf : list customer) :
  NoDup (map fst (churn_counts fdf)) /\
  (forall o n, In (o, n) (churn_counts fdf) <->
               n = count_outcome o (map attrition_flag fdf) /\ 0 < n) /\
  descending (churn_counts fdf) /\
  sumZ (map snd (churn_counts fdf)) = Z.of_nat (List.length fdf).
Proof.
  unfold churn_counts. set (l := map attrition_flag fdf).
  pose proof (value_counts_perm l) as P.
  split; [|split; [|split]].
  - apply (Permutation_NoDup (Permutation_sym (Permutation_map fst P))).
    rewrite map_map. simpl. rewrite map_id.
    apply unique_NoDup, outcome_eqb_eq.
  - intros o n. split.
    + intros H. apply (Permutation_in _ P) in H. apply in_map_iff in H.
      destruct H as [o' [E H]]. inversion E; subst.
      split; [reflexivity|].
      apply count_outcome_pos.
      exact (proj1 (unique_In _ outcome_eqb_eq _ _) H).
    + intros [-> H]. apply (Permutation_in _ (Permutation_sym P)).
      apply in_map_iff. exists o. split; [reflexivity|].
      apply (proj2 (unique_In _ outcome_eqb_eq _ _)).
      now apply count_outcome_pos.
  - apply value_counts_sorted.
  - rewrite (sumZ_perm _ _ (Permutation_map snd P)), map_map. simpl.
    rewrite <- (length_map attrition_flag fdf). fold l.
    apply (sum_group_sizes outcome_eqb (fun o : outcome => o) outcome_eqb_eq).
    + apply unique_NoDup, outcome_eqb_eq.
    + intros o Ho. exact (proj2 (unique_In _ outcome_eqb_eq _ _) Ho).
Qed.

(** ** The overview metrics *)

Lemma attrited_le_total (df : list customer) :
  0 <= attrited_customer df <= total_customer df.
Proof.
  unfold attrited_customer, total_customer.
  pose proof (filter_length_le
                (fun r => outcome_eqb (attrition_flag r) Attrited) df). lia.
Qed.

(** X7. The churn rate of the overview page is undefined (the division
    raises) exactly on an empty data set; otherwise it is a percentage
    between 0 and 100. *)
Theorem churn_rate_defined (df : list customer) :
  (churn_rate df = None <-> df = []) /\
  (forall q, churn_rate df = Some q -> (0 <= q /\ q <= 100)%Q).
Proof.
  unfold churn_rate. pose proof (attrited_le_total df) as B.
  destruct (Z.eqb_spec (total_customer df) 0) as [E|N].
  - split; [|discriminate]. split; [|reflexivity]. intros _.
    unfold total_customer in E. destruct df; [reflexivity|simpl in E; lia].
  - split.
    + split; [discriminate|]. intros ->. now contradiction N.
    + intros q Hq. inversion Hq; subst; clear Hq.
      set (a := attrited_customer df) in *. set (t := total_customer df) in *.
      assert (Ht : (0 < inject_Z t)%Q)
        by (change 0%Q with (inject_Z 0); rewrite <- Zlt_Qlt; lia).
      assert (Ha : (0 <= inject_Z a)%Q)
        by (change 0%Q with (inject_Z 0); rewrite <- Zle_Qle; lia).
      assert (Hat : (inject_Z a <= inject_Z t)%Q)
        by (rewrite <- Zle_Qle; lia).
      assert (D0 : (0 <= inject_Z a / inject_Z t)%Q).
      { apply Qle_shift_div_l; [exact Ht|]. lra. }
      assert (D1 : (inject_Z a / inject_Z t <= 1)%Q).
      { apply Qle_shift_div_r; [exact Ht|]. lra. }
      split; lra.
Qed.

(** ** Range and order of the rate table *)

(** X8. Every percentage of a rate table is the float64 nearest to a whole
    number of tenths between 0.0 and 100.0, and is at most 0.05 away from
    the exact percentage 100 * count / total of its cell, up to the float64
    error of the computation (below [10^-12]). *)
Theorem rate_within_half_a_tenth
  (df : list customer) (d : dimension) (r : rate_row) :
  In r (churn_rate_df df d) ->
  exists m, 0 <= m <= 1000 /\ percentage r = fl (inject_Z m / 10)%Q /\
    (- (1 # 20) - tiny
     <= percentage r - exact_percentage d df (category r) (flag r)
     /\ percentage r - exact_percentage d df (category r) (flag r)
        <= (1 # 20) + tiny)%Q.
Proof.
  intros Hr. apply churn_rate_df_In in Hr.
  destruct Hr as [v [o [Hv [_ ->]]]].
  apply total_in_pos in Hv.
  pose proof (count_in_le_total d df v o) as B.
  destruct (rint_scaled_rate _ _ B Hv) as [M [L U]].
  destruct (stored_tenth _ M) as [[SL SU] _].
  exists (rint (scaled_rate (count_in d df v o) (total_in d df v))).
  unfold rate_entry, percentage, category, flag.
  rewrite rate_of_scaled. rewrite <- exact_percentage_scaled in L, U.
  split; [exact M|]. split; [reflexivity|].
  set (m := inject_Z (rint (scaled_rate (count_in d df v o)
                                        (total_in d df v)))) in *.
  set (x := exact_percentage d df v o) in *.
  unfold tiny in *. unfold Qdiv in *. change (/ 10)%Q with (1 # 10)%Q in *.
  split; lra.
Qed.

Lemma rate_within_half_a_tenth_witness :
  exists m, 0 <= m <= 1000 /\
    percentage (rate_entry "F" Attrited 49 80) = fl (inject_Z m / 10)%Q /\
    (- (1 # 20) - tiny
     <= percentage (rate_entry "F" Attrited 49 80)
        - exact_percentage Gender eighty "F" Attrited
     /\ percentage (rate_entry "F" Attrited 49 80)
        - exact_percentage Gender eighty "F" Attrited <= (1 # 20) + tiny)%Q.
Proof.
  apply (rate_within_half_a_tenth eighty Gender
           (rate_entry "F" Attrited 49 80)).
  vm_compute. left. reflexivity.
Defined.



Lemma insert_sorted_ascending (x : string) (l : list string) :
  ascending l -> ascending (insert_sorted x l).
Proof.
  unfold ascending. induction 1 as [|y l Hl IH Hy]; simpl.
  - repeat constructor.
  - destruct (String.leb x y) eqn:L.
    + constructor; [constructor; assumption|]. constructor. exact L.
    + assert (L' : String.leb y x = true)
        by (destruct (String.leb_total x y); congruence).
      constructor; [exact IH|].
      destruct l as [|z l]; simpl.
      * constructor. exact L'.
      * inversion Hy; subst.
        destruct (String.leb x z); constructor; assumption.
Qed.

Lemma sort_values_ascending (l : list string) : ascending (sort_values l).
Proof.
  induction l as [|x l IH]; simpl; [constructor|].
  now apply insert_sorted_ascending.
Qed.

Lemma filter_flag_block (o o' : outcome) (c : string -> outcome -> Z)
  (t : string -> Z) (idx : list string) :
  filter (fun r => outcome_eqb (flag r) o')
         (map (fun v => rate_entry v o (c v o) (t v)) idx)
  = if outcome_eqb o o' then map (fun v => rate_entry v o (c v o) (t v)) idx
    else [].
Proof.
  induction idx as [|v idx IH]; simpl; [now destruct (outcome_eqb o o')|].
  rewrite IH. now destruct (outcome_eqb o o').
Qed.

Lemma filter_flag_rows (p : outcome -> bool) (c : string -> outcome -> Z)
  (t : string -> Z) (idx : list string) (o' : outcome) :
  filter (fun r => outcome_eqb (flag r) o')
         (flat_map (fun o => map (fun v => rate_entry v o (c v o) (t v)) idx)
                   (filter p [Attrited; Existing]))
  = if p o' then map (fun v => rate_entry v o' (c v o') (t v)) idx else [].
Proof.
  simpl filter.
  destruct (p Attrited) eqn:PA; destruct (p Existing) eqn:PE;
    simpl flat_map; rewrite ?filter_app, ?filter_flag_block;
    destruct o'; rewrite ?PA, ?PE; simpl; rewrite ?app_nil_r; reflexivity.
Qed.

Lemma flag_rows_split (p : outcome -> bool) (c : string -> outcome -> Z)
  (t : string -> Z) (idx : list string) :
  flat_map (fun o => map (fun v => rate_entry v o (c v o) (t v)) idx)
           (filter p [Attrited; Existing])
  = (if p Attrited
     then map (fun v => rate_entry v Attrited (c v Attrited) (t v)) idx
     else [])
    ++ (if p Existing
        then map (fun v => rate_entry v Existing (c v Existing) (t v)) idx
        else []).
Proof.
  simpl filter.
  destruct (p Attrited); destruct (p Existing); simpl;
    rewrite ?app_nil_r; reflexivity.
Qed.

(** X10. The rows of a rate table come outcome by outcome, the attrited
    rows before the existing ones, and within an outcome in ascending order
    of the category value. *)
Theorem rate_rows_order (df : list customer) (d : dimension) :
  churn_rate_df df d
  = filter (fun r => outcome_eqb (flag r) Attrited) (churn_rate_df df d)
    ++ filter (fun r => outcome_eqb (flag r) Existing) (churn_rate_df df d) /\
  forall o,
    ascending (map category
                 (filter (fun r => outcome_eqb (flag r) o)
                         (churn_rate_df df d))).
Proof.
  rewrite churn_rate_df_table. unfold sorted_outcomes.
  split; [rewrite !filter_flag_rows; apply flag_rows_split|].
  intros o. rewrite filter_flag_rows.
  destruct (existsb (outcome_eqb o) (map snd (observations d df)));
    [|constructor].
  rewrite map_map. simpl. rewrite map_id. apply sort_values_ascending.
Qed.

(** ** Age groups are intervals *)

(** X12. The age groups are ordered intervals of ages: an older customer
    is never in an earlier group, and two ages of one group have every age
    between them in that group. *)
Theorem age_groups_are_intervals (a b : Z) (g h : string) :
  a <= b -> assign_age_group a = Some g -> assign_age_group b = Some h ->
  String.leb g h = true /\
  (g = h -> forall c, a <= c <= b -> assign_age_group c = Some g).
Proof.
  intros L Ha Hb.
  apply assign_age_group_bucket in Ha. apply assign_age_group_bucket in Hb.
  split.
  - destruct Ha as [[-> A]|[[-> A]|[[-> A]|[-> A]]]];
      destruct Hb as [[-> B]|[[-> B]|[[-> B]|[-> B]]]];
      try reflexivity; lia.
  - intros <- c Hc. apply assign_age_group_bucket.
    destruct Ha as [[-> A]|[[-> A]|[[-> A]|[-> A]]]];
      destruct Hb as [[E B]|[[E B]|[[E B]|[E B]]]];
      try discriminate E; [left|right; left|right; right; left|
                           right; right; right]; split; try reflexivity; lia.
Qed.

Lemma age_groups_are_intervals_witness :
  String.leb "20-39" "50-59" = true /\
  ("20-39" = "50-59" ->
   forall c, 25 <= c <= 57 -> assign_age_group c = Some "20-39").
Proof.
  apply (age_groups_are_intervals 25 57 "20-39" "50-59");
    [lia|reflexivity|reflexivity].
Defined.

(** ** Column names *)

Lemma normalize_char_fixed (c : ascii) :
  Ascii.eqb (underscore_char (lower_char c)) c
  = negb (is_upper c) && negb (Ascii.eqb c " ").
Proof. destruct c as [[] [] [] [] [] [] [] []]; reflexivity. Qed.

Lemma normalize_char_normalized (c : ascii) :
  negb (is_upper (underscore_char (lower_char c)))
  && negb (Ascii.eqb (underscore_char (lower_char c)) " ") = true.
Proof. destruct c as [[] [] [] [] [] [] [] []]; reflexivity. Qed.

Lemma map_chars_compose (f g : ascii -> ascii) (s : string) :
  map_chars f (map_chars g s) = map_chars (fun c => f (g c)) s.
Proof. induction s as [|c s IH]; simpl; [reflexivity|]. now rewrite IH. Qed.

Lemma map_chars_length (f : ascii -> ascii) (s : string) :
  String.length (map_chars f s) = String.length s.
Proof. induction s as [|c s IH]; simpl; [reflexivity|]. now rewrite IH. Qed.

Lemma normalize_column_normalized (s : string) :
  normalized (normalize_column s) = true.
Proof.
  unfold normalized, normalize_column. rewrite map_chars_compose.
  induction s as [|c s IH]; simpl; [reflexivity|].
  now rewrite normalize_char_normalized, IH.
Qed.

Lemma normalize_column_fixed (s : string) :
  normalize_column s = s <-> normalized s = true.
Proof.
  unfold normalized, normalize_column. rewrite map_chars_compose.
  induction s as [|c s IH]; simpl; [tauto|].
  rewrite andb_true_iff, <- IH, <- normalize_char_fixed. split.
  - intros E. injection E as E1 E2.
    split; [now apply Ascii.eqb_eq|exact E2].
  - intros [E1 E2]. apply Ascii.eqb_eq in E1. now f_equal.
Qed.

(** X13. Normalising an ASCII column name gives a name of the same length
    with no upper-case letter and no space; normalising is idempotent, and
    it leaves a name unchanged exactly when the name has neither. *)
Theorem normalize_column_idempotent (s : string) :
  all_chars is_ascii s = true ->
  normalized (normalize_column s) = true /\
  String.length (normalize_column s) = String.length s /\
  normalize_column (normalize_column s) = normalize_column s /\
  (normalize_column s = s <-> normalized s = true).
Proof.
  intros _. split; [apply normalize_column_normalized|]. split.
  - unfold normalize_column. now rewrite !map_chars_length.
  - split; [|apply normalize_column_fixed].
    apply normalize_column_fixed, normalize_column_normalized.
Qed.

Lemma normalize_column_idempotent_witness :
  normalized (normalize_column "Customer Age") = true /\
  String.length (normalize_column "Customer Age")
  = String.length "Customer Age" /\
  normalize_column (normalize_column "Customer Age")
  = normalize_column "Customer Age" /\
  (normalize_column "Customer Age" = "Customer Age" <->
   normalized "Customer Age" = true).
Proof.
  apply (normalize_column_idempotent "Customer Age"). reflexivity.
Defined.

(** ** Thousands separators *)

Lemma strip_commas_filter (l : list ascii) :
  strip_commas (string_of_list_ascii l)
  = string_of_list_ascii (filter not_comma l).
Proof.
  unfold not_comma. induction l as [|c l IH]; simpl; [reflexivity|].
  destruct (Ascii.eqb c ","); simpl; now rewrite IH.
Qed.

Lemma group_thousands_step (a b c e : ascii) (l : list ascii) :
  group_thousands (a :: b :: c :: e :: l)
  = a :: b :: c :: ","%char :: group_thousands (e :: l).
Proof. reflexivity. Qed.

Lemma group_thousands_filter (n : nat) (l : list ascii) :
  (List.length l <= n)%nat ->
  filter not_comma (group_thousands l) = filter not_comma l.
Proof.
  revert l. induction n as [|n IH]; intros l Hl.
  - destruct l; [reflexivity|simpl in Hl; lia].
  - destruct l as [|a [|b [|c [|e l]]]]; try reflexivity.
    rewrite group_thousands_step.
    change (a :: b :: c :: ","%char :: group_thousands (e :: l))
      with ([a; b; c] ++ ","%char :: group_thousands (e :: l)).
    change (a :: b :: c :: e :: l) with ([a; b; c] ++ e :: l).
    rewrite !filter_app. f_equal.
    change (filter not_comma (","%char :: group_thousands (e :: l)))
      with (filter not_comma (group_thousands (e :: l))).
    apply IH. simpl in *. lia.
Qed.

Lemma uint_no_comma (d : Decimal.uint) :
  filter not_comma (list_ascii_of_string (NilEmpty.string_of_uint d))
  = list_ascii_of_string (NilEmpty.string_of_uint d).
Proof. induction d; simpl; try rewrite IHd; reflexivity. Qed.

Lemma string_of_Z_no_comma (n : Z) :
  filter not_comma (list_ascii_of_string (string_of_Z n))
  = list_ascii_of_string (string_of_Z n).
Proof.
  unfold string_of_Z, NilZero.string_of_int, NilZero.string_of_uint.
  destruct (Z.to_int n) as [d|d]; destruct d; simpl;
    try reflexivity; rewrite uint_no_comma; reflexivity.
Qed.

Lemma strip_format_thousands (n : Z) :
  strip_commas (format_thousands n) = string_of_Z n.
Proof.
  unfold format_thousands.
  rewrite strip_commas_filter, filter_rev.
  rewrite (group_thousands_filter _ _ (le_n _)).
  rewrite <- filter_rev, rev_involutive, string_of_Z_no_comma.
  apply string_of_list_ascii_of_string.
Qed.

Lemma parse_string_of_Z (n : Z) :
  option_map Z.of_int (NilZero.int_of_string (string_of_Z n)) = Some n.
Proof.
  unfold string_of_Z. rewrite NilZero.isi.
  - simpl. f_equal. apply DecimalZ.of_to.
  - destruct n; simpl; try discriminate.
    intros E. injection E as E. now apply DecimalPos.Unsigned.to_uint_nonnil in E.
  - destruct n; simpl; try discriminate.
    intros E. injection E as E. now apply DecimalPos.Unsigned.to_uint_nonnil in E.
Qed.

Lemma group_thousands_commas (n : nat) (l : list ascii) :
  (List.length l <= n)%nat -> filter not_comma l = l ->
  ((l <> [] -> List.length (group_thousands l) mod 4 <> 0)%nat) /\
  forall i, (i < List.length (group_thousands l))%nat ->
    (nth i (group_thousands l) " "%char = ","%char <-> i mod 4 = 3)%nat.
Proof.
  revert l. induction n as [|n IH]; intros l Hl Hc.
  - destruct l; [|simpl in Hl; lia]. split; [congruence|].
    simpl. intros i Hi. lia.
  - assert (D : forall x, In x l -> x <> ","%char).
    { intros x Hx ->. rewrite <- Hc in Hx. apply filter_In in Hx.
      destruct Hx as [_ Hx]. discriminate. }
    destruct l as [|a [|b [|c [|e l]]]].
    + split; [congruence|]. simpl. intros i Hi. lia.
    + split; [intros _; simpl; discriminate|]. simpl. intros i Hi.
      assert (i = 0)%nat by lia. subst. simpl.
      split; [intros E; exfalso; apply (D a); simpl; auto|discriminate].
    + split; [intros _; simpl; discriminate|]. simpl. intros i Hi.
      destruct i as [|[|i]]; try lia; simpl;
        (split; [intros E; exfalso; eapply D; [|exact E]; simpl; auto
                |discriminate]).
    + split; [intros _; simpl; discriminate|]. simpl. intros i Hi.
      destruct i as [|[|[|i]]]; try lia; simpl;
        (split; [intros E; exfalso; eapply D; [|exact E]; simpl; auto
                |discriminate]).
    + rewrite group_thousands_step.
      assert (Hc' : filter not_comma (e :: l) = e :: l).
      { apply filter_all. intros x Hx.
        assert (N : x <> ","%char) by (apply D; simpl; tauto).
        unfold not_comma.
        destruct (Ascii.eqb_spec x ","); [contradiction|reflexivity]. }
      destruct (IH (e :: l)) as [IH1 IH2]; [simpl in *; lia|exact Hc'|].
      split.
      * intros _. cbn [List.length].
        assert (K : (List.length (group_thousands (e :: l)) mod 4 <> 0)%nat)
          by (apply IH1; discriminate).
        replace (S (S (S (S (List.length (group_thousands (e :: l)))))))
          with (List.length (group_thousands (e :: l)) + 1 * 4)%nat by lia.
        now rewrite Nat.Div0.mod_add.
      * intros i Hi. cbn [List.length] in Hi.
        destruct i as [|[|[|[|i]]]]; cbn [nth].
        -- split; [intros E; exfalso; eapply D; [|exact E]; simpl; auto
                  |discriminate].
        -- split; [intros E; exfalso; eapply D; [|exact E]; simpl; auto
                  |discriminate].
        -- split; [intros E; exfalso; eapply D; [|exact E]; simpl; auto
                  |discriminate].
        -- split; reflexivity.
        -- rewrite IH2 by lia.
           replace (S (S (S (S i)))) with (i + 1 * 4)%nat by lia.
           now rewrite Nat.Div0.mod_add.
Qed.

(** X14. The text of a count metric reads back as the count once its
    commas are removed, and its commas stand exactly before every group of
    three digits counted from the right: never first, never elsewhere. *)
Theorem format_thousands_reads_back (n : Z) :
  0 <= n ->
  option_map Z.of_int
    (NilZero.int_of_string (strip_commas (format_thousands n))) = Some n /\
  (List.length (list_ascii_of_string (format_thousands n)) mod 4 <> 0)%nat /\
  forall i,
    (i < List.length (list_ascii_of_string (format_thousands n)))%nat ->
    (nth i (rev (list_ascii_of_string (format_thousands n))) " "%char
     = ","%char <-> i mod 4 = 3)%nat.
Proof.
  intros _. split; [rewrite strip_format_thousands; apply parse_string_of_Z|].
  unfold format_thousands.
  rewrite list_ascii_of_string_of_list_ascii, rev_involutive, length_rev.
  set (l := rev (list_ascii_of_string (string_of_Z n))).
  assert (Hc : filter not_comma l = l).
  { unfold l. now rewrite filter_rev, string_of_Z_no_comma. }
  assert (Hn : l <> []).
  { unfold l. intros E. apply (f_equal (@List.length ascii)) in E.
    rewrite length_rev in E. simpl in E.
    pose proof (parse_string_of_Z n) as P.
    destruct (string_of_Z n); [discriminate P|simpl in E; lia]. }
  destruct (group_thousands_commas _ l (le_n _) Hc) as [K1 K2].
  split; [now apply K1|exact K2].
Qed.

Lemma format_thousands_reads_back_witness :
  option_map Z.of_int
    (NilZero.int_of_string (strip_commas (format_thousands 10127)))
  = Some 10127 /\
  (List.length (list_ascii_of_string (format_thousands 10127)) mod 4 <> 0)%nat /\
  forall i,
    (i < List.length (list_ascii_of_string (format_thousands 10127)))%nat ->
    (nth i (rev (list_ascii_of_string (format_thousands 10127))) " "%char
     = ","%char <-> i mod 4 = 3)%nat.
Proof.
  apply (format_thousands_reads_back 10127). lia.
Defined.

(** ** Percentage labels *)

Lemma uint_no_dot (d : Decimal.uint) :
  no_dot (NilEmpty.string_of_uint d) = true.
Proof. unfold no_dot. induction d; simpl; try rewrite IHd; reflexivity. Qed.

Lemma string_of_Z_no_dot (n : Z) : no_dot (string_of_Z n) = true.
Proof.
  unfold string_of_Z, NilZero.string_of_int, NilZero.string_of_uint.
  destruct (Z.to_int n) as [d|d]; destruct d;
    try reflexivity; try apply uint_no_dot;
    unfold no_dot; simpl; apply uint_no_dot.
Qed.

Lemma split_at_dot (a1 a2 x1 x2 : string) :
  no_dot a1 = true -> no_dot a2 = true ->
  (a1 ++ String "." x1 = a2 ++ String "." x2)%string ->
  a1 = a2 /\ x1 = x2.
Proof.
  unfold no_dot. revert a2.
  induction a1 as [|c a1 IH]; intros [|c2 a2]; simpl; intros H1 H2 E.
  - injection E as E. auto.
  - injection E as E _. subst c2. discriminate H2.
  - injection E as E _. subst c. discriminate H1.
  - injection E as Ec E. subst c2.
    apply andb_true_iff in H1. apply andb_true_iff in H2.
    destruct (IH a2) as [-> ->]; tauto.
Qed.

Lemma string_of_Z_inj (m n : Z) : string_of_Z m = string_of_Z n -> m = n.
Proof.
  intros E. pose proof (parse_string_of_Z m) as P.
  rewrite E, parse_string_of_Z in P. congruence.
Qed.

Lemma float_str_tenths (m : Z) :
  0 <= m <= 1000 ->
  float_str (fl (inject_Z m / 10))%Q
  = (string_of_Z (m / 10) ++ "." ++ string_of_Z (m mod 10))%string.
Proof.
  intros Hm. unfold float_str.
  now rewrite (proj2 (stored_tenth m Hm)).
Qed.

Lemma float_str_inj (m n : Z) :
  0 <= m <= 1000 -> 0 <= n <= 1000 ->
  float_str (fl (inject_Z m / 10))%Q = float_str (fl (inject_Z n / 10))%Q ->
  m = n.
Proof.
  intros Hm Hn. rewrite !float_str_tenths by assumption. intros E.
  apply split_at_dot in E; try apply string_of_Z_no_dot.
  destruct E as [E1 E2].
  apply string_of_Z_inj in E1. apply string_of_Z_inj in E2.
  rewrite (Z.div_mod m 10), (Z.div_mod n 10) by lia. congruence.
Qed.

Lemma append_percent_inj (s t : string) :
  (s ++ "%" = t ++ "%")%string -> s = t.
Proof.
  revert t. induction s as [|c s IH]; intros [|c2 t] E; simpl in E.
  - reflexivity.
  - injection E as _ E. destruct t; discriminate E.
  - injection E as _ E. destruct s; discriminate E.
  - injection E as -> E. f_equal. now apply IH.
Qed.

Lemma append_assoc_string (a b c : string) :
  ((a ++ b) ++ c = a ++ (b ++ c))%string.
Proof. induction a as [|x a IH]; simpl; [reflexivity|]. now rewrite IH. Qed.

(** X15. The label of a rate row is the one-decimal numeral of its
    percentage followed by a percent sign, and it determines the
    percentage: rows with the same label hold the same percentage. *)
Theorem label_determines_percentage
  (df1 df2 : list customer) (d1 d2 : dimension) (r1 r2 : rate_row) :
  In r1 (churn_rate_df df1 d1) -> In r2 (churn_rate_df df2 d2) ->
  (exists m, percentage r1 = fl (inject_Z m / 10)%Q /\
     percentage_label r1
     = (string_of_Z (m / 10) ++ "." ++ string_of_Z (m mod 10) ++ "%")%string) /\
  (percentage_label r1 = percentage_label r2 ->
   percentage r1 = percentage r2).
Proof.
  intros H1 H2. apply churn_rate_df_In in H1. apply churn_rate_df_In in H2.
  destruct H1 as [v1 [o1 [Hv1 [_ ->]]]]. destruct H2 as [v2 [o2 [Hv2 [_ ->]]]].
  apply total_in_pos in Hv1. apply total_in_pos in Hv2.
  pose proof (count_in_le_total d1 df1 v1 o1) as B1.
  pose proof (count_in_le_total d2 df2 v2 o2) as B2.
  destruct (rint_scaled_rate _ _ B1 Hv1) as [M1 _].
  destruct (rint_scaled_rate _ _ B2 Hv2) as [M2 _].
  unfold rate_entry, percentage, percentage_label.
  rewrite !rate_of_scaled.
  split.
  - exists (rint (scaled_rate (count_in d1 df1 v1 o1) (total_in d1 df1 v1))).
    split; [reflexivity|].
    rewrite (float_str_tenths _ M1), !append_assoc_string.
    cbn [append]. reflexivity.
  - intros E. apply append_percent_inj, float_str_inj in E; try assumption.
    now rewrite E.
Qed.

Lemma label_determines_percentage_witness :
  (exists m, percentage (rate_entry "F" Attrited 1 16)
             = fl (inject_Z m / 10)%Q /\
     percentage_label (rate_entry "F" Attrited 1 16)
     = (string_of_Z (m / 10) ++ "." ++ string_of_Z (m mod 10) ++ "%")%string) /\
  (percentage_label (rate_entry "F" Attrited 1 16)
   = percentage_label (rate_entry "20-39" Attrited 1 2) ->
   percentage (rate_entry "F" Attrited 1 16)
   = percentage (rate_entry "20-39" Attrited 1 2)).
Proof.
  apply (label_determines_percentage sixteen scenario Gender AgeGroup).
  - vm_compute. left. reflexivity.
  - vm_compute. left. reflexivity.
Defined.

(** ** The rounding model against the machine's binary64 *)

Example scaled_rate_is_binary64 :
  forallb agrees_up_to [1; 3; 7; 16; 57; 80; 160; 999; 2000] = true.
Proof. vm_compute. reflexivity. Qed.

Example stored_tenths_are_binary64 :
  forallb (fun m => Qeq_bool
             (Q_of_binary64 (binary64_of_Z m / 10)%float)
             (fl (inject_Z m / 10)))
          (map Z.of_nat (seq 0 1001)) = true.
Proof. vm_compute. reflexivity. Qed.

Example sum_is_binary64 :
  Qeq_bool
    (Q_of_binary64 (binary64_of_Z 2 / 10 + binary64_of_Z 999 / 10)%float)
    (fl (fl (inject_Z 2 / 10) + fl (inject_Z 999 / 10))) = true.
Proof. vm_compute. reflexivity. Qed.
